(** * ThreadRegistry (runtime/vm/thread_registry.h)

    A shallow embedding of the per-isolate thread registry of the Dart VM
    and the properties of its attach/detach protocol, its diagnostics and
    its root visitation.

    Every method of the class runs under [MonitorLocker ml(monitor_)], so a
    method body is a sequence of atomic sections separated by
    [ml.Wait(...)].  A method is therefore embedded as a function from the
    registry fields to an [Outcome]: it returns, it dies in a failed
    [ASSERT]/[FATAL3], or it parks on the monitor with the condition of its
    wait loop and the code that follows the loop. *)

From Stdlib Require Import ZArith Lia.
From stdpp Require Import base numbers functions list.

Local Open Scope Z_scope.

(** ** Data model *)

(** [Thread*], [Zone*], [Isolate*]: addresses; [NULL] is 0. *)
Definition Ptr := Z.
Definition NULL : Ptr := 0.

Global Instance Ptr_eq_dec : EqDecision Ptr := Z.eq_dec.

(** The part of a [Thread] object that the registry reads through
    [thread->zone()], [thread->top_exit_frame_info()] and
    [thread->isolate()]. *)
Record ThreadObj := mkThreadObj {
  thread_zone : Ptr;
  thread_top_exit_frame_info : Z;
  thread_isolate : Ptr
}.

(** What each [Thread*] points to when a method runs.  Thread objects are
    owned by the thread subsystem, not by the registry. *)
Definition Heap := Ptr -> ThreadObj.

(** [Thread::State].  vm/thread.h is not part of the sources; the two
    fields the registry reads are [zone] and [top_exit_frame_info] (a
    [uword]), the remaining fields are kept as one opaque component. *)
Record State (Other : Type) := mkState {
  zone : Ptr;
  top_exit_frame_info : Z;
  other_fields : Other
}.
Arguments mkState {Other}.
Arguments zone {Other}.
Arguments top_exit_frame_info {Other}.
Arguments other_fields {Other}.

(** [struct Entry] (lines 122-126). *)
Record Entry (Other : Type) := mkEntry {
  thread : Ptr;
  scheduled : bool;
  state : State Other
}.
Arguments mkEntry {Other}.
Arguments thread {Other}.
Arguments scheduled {Other}.
Arguments state {Other}.

(** The data members of [ThreadRegistry] (lines 147-154).  [monitor_] is
    the lock every method holds; it has no field of its own here.
    [entries_], a [MallocGrowableArray<Entry>], is a list: [Add] appends
    and [entries_[i]] is the lookup at [i].  [remaining_] ([intptr_t]) and
    [round_] ([int64_t]) are signed and change by one at a time; they are
    kept as unbounded integers. *)
Record Registry (Other : Type) := mkRegistry {
  entries_ : list (Entry Other);
  in_rendezvous_ : bool;
  remaining_ : Z;
  round_ : Z
}.
Arguments mkRegistry {Other}.
Arguments entries_ {Other}.
Arguments in_rendezvous_ {Other}.
Arguments remaining_ {Other}.
Arguments round_ {Other}.

(** Steps of the rendezvous protocol that a method can perform; they are
    recorded in the outcome of a call and change no field. *)
Inductive Event :=
| Snapshot (counted : list Ptr)
    (** a pause request has set [remaining_] to the number of scheduled
        entries, which are those of the threads [counted] *)
| CheckedIn  (** the calling thread has decremented [remaining_] *)
| Resumed    (** [in_rendezvous_] has been cleared *).

(** The ways a call terminates the process. *)
Inductive Fatal :=
| AssertFailed (line : Z)
    (** the [ASSERT] that starts at this source line failed *)
| StillScheduled (isolate thread thread_isolate : Ptr)
    (** the [FATAL3] of line 102 with its three arguments *).

(** ** Monitor-protected code *)

Inductive Outcome (Other A : Type) :=
| Returned (a : A) (r : Registry Other)
    (** the method returned [a] and released the monitor in state [r] *)
| Aborted (f : Fatal)
| Did (ev : Event) (o : Outcome Other A)
    (** the method performed the protocol step [ev] and went on as [o] *)
| Parked (r : Registry Other) (cond : Registry Other -> bool)
         (k : Registry Other -> Outcome Other A)
    (** the method released the monitor in state [r] inside
        [while (cond) ml.Wait(...)]; [k] is the code after the loop *).
Arguments Returned {Other A}.
Arguments Aborted {Other A}.
Arguments Did {Other A}.
Arguments Parked {Other A}.

Definition M (Other A : Type) : Type := Registry Other -> Outcome Other A.

Fixpoint bind_outcome {Other A B} (f : A -> M Other B) (o : Outcome Other A)
  : Outcome Other B :=
  match o with
  | Returned a r => f a r
  | Aborted e => Aborted e
  | Did ev o' => Did ev (bind_outcome f o')
  | Parked r c k => Parked r c (fun r' => bind_outcome f (k r'))
  end.

Global Instance M_ret {Other} : MRet (M Other) := fun A a r => Returned a r.
Global Instance M_bind {Other} : MBind (M Other) :=
  fun A B f m r => bind_outcome f (m r).

(** A parked thread that re-acquires the monitor in state [now] evaluates
    the condition of its wait loop again.  Protocol steps recorded before
    the thread parked are behind it. *)
Fixpoint resume {Other A} (o : Outcome Other A) (now : Registry Other)
  : Outcome Other A :=
  match o with
  | Parked _ c k => if c now then Parked now c k else k now
  | Did _ o' => resume o' now
  | _ => o
  end.

Definition returns_normally {Other A} (o : Outcome Other A) : Prop :=
  exists a r, o = Returned a r.

(** ** Sample data *)

(** Threads run in isolate 99 with the given [top_exit_frame_info]; thread
    7 has zone [0x7000], the others have none. *)
Definition sample_heap (top_exit_frame_info : Z) : Heap :=
  fun t =>
    {| thread_zone := if t =? 7 then 0x7000 else NULL;
       thread_top_exit_frame_info := top_exit_frame_info;
       thread_isolate := 99 |}.

Definition sample_junk : State unit :=
  {| zone := 0xbad; top_exit_frame_info := 0xbad; other_fields := tt |}.

Definition sample_state : State unit :=
  {| zone := 0x5000; top_exit_frame_info := 10; other_fields := tt |}.

(** Thread 7 is attached. *)
Definition sample_attached : Registry unit :=
  {| entries_ :=
       [ {| thread := 7; scheduled := true; state := sample_junk |} ];
     in_rendezvous_ := false; remaining_ := 0; round_ := 0 |}.

(** Thread 7 is detached with [sample_state]. *)
Definition sample_detached : Registry unit :=
  {| entries_ :=
       [ {| thread := 7; scheduled := false; state := sample_state |} ];
     in_rendezvous_ := false; remaining_ := 0; round_ := 0 |}.

(** Thread 6 is detached with [sample_state], thread 8, which has no zone,
    is attached, and thread 7 is attached. *)
Definition sample_three : Registry unit :=
  {| entries_ :=
       [ {| thread := 6; scheduled := false; state := sample_state |};
         {| thread := 8; scheduled := true; state := sample_junk |};
         {| thread := 7; scheduled := true; state := sample_junk |} ];
     in_rendezvous_ := false; remaining_ := 0; round_ := 0 |}.

Section Registry.

Context {Other : Type}.

Local Abbreviation State := (State Other).
Local Abbreviation Entry := (Entry Other).
Local Abbreviation Registry := (Registry Other).
Local Abbreviation Outcome := (Outcome Other).
Local Abbreviation M := (M Other).

(** Build configuration: whether [DEBUG] is defined, and the word size of
    vm/globals.h in bytes. *)
Variable DEBUG : bool.
Variable kWordSize : nat.

(** [memset(&x, 0xda, sizeof(x))]: every byte of a word is [0xda].  What
    the pattern reads as in the fields of [Thread::State] that are not
    known here is [zapped_other]. *)
Variable zapped_other : Other.

Fixpoint fill_bytes (n : nat) (b : Z) : Z :=
  match n with
  | O => 0
  | S n' => Z.lor (Z.shiftl (fill_bytes n' b) 8) b
  end.

Definition zapped : State :=
  {| zone := fill_bytes kWordSize 0xda;
     top_exit_frame_info := fill_bytes kWordSize 0xda;
     other_fields := zapped_other |}.

(** *** Primitive steps *)

Definition gets {A} (f : Registry -> A) : M A := fun r => Returned (f r) r.

Definition modify (f : Registry -> Registry) : M unit :=
  fun r => Returned tt (f r).

Definition did (ev : Event) : M unit := fun r => Did ev (Returned tt r).

Definition set_entries (es : list Entry) (r : Registry) : Registry :=
  {| entries_ := es;
     in_rendezvous_ := in_rendezvous_ r;
     remaining_ := remaining_ r;
     round_ := round_ r |}.

Definition set_in_rendezvous (b : bool) (r : Registry) : Registry :=
  {| entries_ := entries_ r;
     in_rendezvous_ := b;
     remaining_ := remaining_ r;
     round_ := round_ r |}.

Definition set_remaining (n : Z) (r : Registry) : Registry :=
  {| entries_ := entries_ r;
     in_rendezvous_ := in_rendezvous_ r;
     remaining_ := n;
     round_ := round_ r |}.

Definition set_round (n : Z) (r : Registry) : Registry :=
  {| entries_ := entries_ r;
     in_rendezvous_ := in_rendezvous_ r;
     remaining_ := remaining_ r;
     round_ := n |}.

(** Modelled from the spec: [while (cond) { ml.Wait(Monitor::kNoTimeout); }]
    with the monitor of vm/lockers.h, which is not part of the sources.  The
    wait releases the lock; the thread goes on, holding the lock again, in
    a state in which [cond] is false (section 5). *)
Definition wait_while (cond : Registry -> bool) : M unit :=
  fun r => if cond r then Parked r cond (fun r' => Returned tt r')
           else Returned tt r.

(** Modelled from the spec: the [FATAL3] macro of platform/assert.h, which
    is not part of the sources, ends the process (section 7). *)
Definition FATAL {A} (f : Fatal) : M A := fun _ => Aborted f.

(** Modelled from the spec: the [ASSERT] macro of platform/assert.h, which
    is not part of the sources.  A violated assertion is a fatal,
    process-terminating error (section 7 of the specification); a
    satisfied one does nothing. *)
Definition ASSERT (line : Z) (cond : bool) : M unit :=
  if cond then mret tt else FATAL (AssertFailed line).

(** *** The entry table *)

(** [FindEntry] (lines 131-138): the first entry whose [thread] field is
    [t].  The [Entry*] it returns is the index of the entry together with
    the entry found there; [None] is [NULL]. *)
Fixpoint find_from (i : nat) (t : Ptr) (es : list Entry)
  : option (nat * Entry) :=
  match es with
  | [] => None
  | e :: es' => if thread e =? t then Some (i, e) else find_from (S i) t es'
  end.

Definition FindEntry (t : Ptr) (es : list Entry) : option (nat * Entry) :=
  find_from 0 t es.

(** *** Attach and detach *)

(** Lines 52-78 of [RestoreStateTo]: what the method does once no
    rendezvous is in progress.  [heap] gives the thread objects at the time
    of the call and [junk] the contents of the uninitialised
    [new_entry.state].  [Some st] is [return true] after [*state = st];
    [None] is [return false], with [*state] not written. *)
Definition RestoreStateTo_after_wait (heap : Heap) (junk : State) (t : Ptr)
  : M (option State) :=
  entry ← gets (fun r => FindEntry t (entries_ r)) ;
  match entry with
  | Some (i, e) =>
      let st := state e in
      let cur := thread_top_exit_frame_info (heap t) in
      (if negb (top_exit_frame_info st =? cur)
       then ASSERT 58 ((cur =? 0) || (cur >? top_exit_frame_info st))
       else mret tt) ;;
      ASSERT 61 (negb (scheduled e)) ;;
      modify (fun r =>
        set_entries
          (<[i := {| thread := thread e;
                     scheduled := true;
                     state := if DEBUG then zapped else st |}]> (entries_ r))
          r) ;;
      mret (Some st)
  | None =>
      let new_entry :=
        {| thread := t;
           scheduled := true;
           state := if DEBUG then zapped else junk |} in
      modify (fun r => set_entries (entries_ r ++ [new_entry]) r) ;;
      mret None
  end.

(** [RestoreStateTo] (lines 46-79). *)
Definition RestoreStateTo (heap : Heap) (junk : State) (t : Ptr)
  : M (option State) :=
  wait_while in_rendezvous_ ;;
  RestoreStateTo_after_wait heap junk t.

(** Modelled from the spec: [CheckSafepointLocked], declared at line 141
    and defined in thread_registry.cc, which is not part of the sources.
    This is the check-in of section 4.2: return at once when no rendezvous
    is pending; otherwise capture the round, decrement [remaining_] (the
    broadcast when it reaches zero needs no state) and wait while the
    rendezvous of the captured round is in progress. *)
Definition CheckSafepointLocked : M unit :=
  gets in_rendezvous_ ≫= fun pending : bool =>
  if pending then
    my_round ← gets round_ ;
    modify (fun r => set_remaining (remaining_ r - 1) r) ;;
    did CheckedIn ;;
    wait_while (fun r => in_rendezvous_ r && (round_ r =? my_round))
  else mret tt.

(** Lines 85-89 of [SaveStateFrom]. *)
Definition SaveStateFrom_after_checkin (t : Ptr) (st : State) : M unit :=
  entry ← gets (fun r => FindEntry t (entries_ r)) ;
  ASSERT 86 (bool_decide (is_Some entry)) ;;
  match entry with
  | Some (i, e) =>
      ASSERT 87 (scheduled e) ;;
      modify (fun r =>
        set_entries
          (<[i := {| thread := thread e; scheduled := false; state := st |}]>
             (entries_ r))
          r)
  | None => mret tt
  end.

(** [SaveStateFrom] (lines 81-90). *)
Definition SaveStateFrom (t : Ptr) (st : State) : M unit :=
  CheckSafepointLocked ;;
  SaveStateFrom_after_checkin t st.

(** *** Diagnostics and root visitation *)

(** [Contains] (lines 92-95). *)
Definition Contains (t : Ptr) : M bool :=
  entry ← gets (fun r => FindEntry t (entries_ r)) ;
  mret (bool_decide (is_Some entry)).

(** The loop of [CheckNotScheduled] (lines 99-107) over the entries from
    the current index on. *)
Fixpoint check_not_scheduled_loop (heap : Heap) (isolate : Ptr)
    (es : list Entry) : M unit :=
  match es with
  | [] => mret tt
  | entry :: es' =>
      (if scheduled entry
       then FATAL (StillScheduled isolate (thread entry)
                     (thread_isolate (heap (thread entry))))
       else mret tt) ;;
      check_not_scheduled_loop heap isolate es'
  end.

(** [CheckNotScheduled] (lines 97-108). *)
Definition CheckNotScheduled (heap : Heap) (isolate : Ptr) : M unit :=
  es ← gets entries_ ;
  check_not_scheduled_loop heap isolate es.

(** The zone line 114 selects for an entry. *)
Definition zone_of (heap : Heap) (entry : Entry) : Ptr :=
  if scheduled entry then thread_zone (heap (thread entry))
  else zone (state entry).

(** The loop of [VisitObjectPointers] (lines 112-118).  The visitor is
    threaded through as the list of zones whose [VisitObjectPointers] has
    been called with it, oldest first. *)
Fixpoint visit_loop (heap : Heap) (es : list Entry) (visitor : list Ptr)
  : list Ptr :=
  match es with
  | [] => visitor
  | entry :: es' =>
      let z := zone_of heap entry in
      visit_loop heap es' (if negb (z =? NULL) then visitor ++ [z] else visitor)
  end.

(** [VisitObjectPointers] (lines 110-119): returns the visitor after the
    call. *)
Definition VisitObjectPointers (heap : Heap) (visitor : list Ptr)
  : M (list Ptr) :=
  es ← gets entries_ ;
  mret (visit_loop heap es visitor).

(** *** The rendezvous coordinator *)

(** Modelled from the spec: [CountScheduledLocked], declared at line 145
    and defined in thread_registry.cc: the number of entries with
    [scheduled == true]. *)
Definition CountScheduledLocked (r : Registry) : Z :=
  Z.of_nat (length (filter (fun e => scheduled e = true) (entries_ r))).

(** The threads of the entries [CountScheduledLocked] counts. *)
Definition scheduled_threads (r : Registry) : list Ptr :=
  thread <$> filter (fun e => scheduled e = true) (entries_ r).

(** Modelled from the spec: steps 2 to 6 of RequestAndWaitForPause in
    section 4.2, the part of [SafepointThreads] that runs once no older
    rendezvous is in progress. *)
Definition SafepointThreads_after_wait : M unit :=
  modify (fun r => set_round (round_ r + 1) r) ;;
  modify (fun r => set_remaining (CountScheduledLocked r) r) ;;
  counted ← gets scheduled_threads ;
  did (Snapshot counted) ;;
  modify (set_in_rendezvous true) ;;
  wait_while (fun r => 0 <? remaining_ r).

(** Modelled from the spec: [SafepointThreads], declared at line 32 and
    defined in thread_registry.cc.  RequestAndWaitForPause of section
    4.2. *)
Definition SafepointThreads : M unit :=
  wait_while in_rendezvous_ ;;
  SafepointThreads_after_wait.

(** Modelled from the spec: [ResumeAllThreads], declared at line 37 and
    defined in thread_registry.cc.  ResumePausedThreads of section 4.2. *)
Definition ResumeAllThreads : M unit :=
  modify (set_in_rendezvous false) ;;
  did Resumed.

(** [CheckSafepoint] (lines 41-44). *)
Definition CheckSafepoint : M unit := CheckSafepointLocked.

(** The constructor (lines 19-24). *)
Definition ThreadRegistry_new : Registry :=
  {| entries_ := []; in_rendezvous_ := false; remaining_ := 0; round_ := 0 |}.

(** *** Sequences of attach and detach calls *)

Inductive Op :=
| Attach (heap : Heap) (junk : State) (t : Ptr)
| Detach (t : Ptr) (st : State).

Definition run_op (op : Op) : M unit :=
  match op with
  | Attach heap junk t => RestoreStateTo heap junk t ;; mret tt
  | Detach t st => SaveStateFrom t st
  end.

Fixpoint run_ops (ops : list Op) : M unit :=
  match ops with
  | [] => mret tt
  | op :: ops' => run_op op ;; run_ops ops'
  end.

(** The threads a sequence of calls attaches. *)
Definition attached (ops : list Op) : list Ptr :=
  omap (fun op => match op with Attach _ _ t => Some t | Detach _ _ => None end)
       ops.

(** *** Properties of outcomes *)

(** [I] holds whenever the call releases the monitor, provided it holds
    whenever the call acquires it. *)
Fixpoint preserves {A} (I : Registry -> Prop) (o : Outcome A) : Prop :=
  match o with
  | Returned _ r => I r
  | Aborted _ => True
  | Did _ o' => preserves I o'
  | Parked r _ k => I r /\ forall r', I r' -> preserves I (k r')
  end.

(** At most one entry per thread. *)
Definition unique_threads (r : Registry) : Prop :=
  NoDup (thread <$> entries_ r).

(** ** Threads sharing the registry *)

(** The public methods a thread can call. *)
Inductive Call :=
| CallSafepointThreads
| CallResumeAllThreads
| CallCheckSafepoint
| CallRestoreStateTo (heap : Heap) (junk : State) (t : Ptr)
| CallSaveStateFrom (t : Ptr) (st : State)
| CallContains (t : Ptr)
| CallCheckNotScheduled (heap : Heap) (isolate : Ptr)
| CallVisitObjectPointers (heap : Heap) (visitor : list Ptr).

Definition perform (c : Call) : M unit :=
  match c with
  | CallSafepointThreads => SafepointThreads
  | CallResumeAllThreads => ResumeAllThreads
  | CallCheckSafepoint => CheckSafepoint
  | CallRestoreStateTo heap junk t => RestoreStateTo heap junk t ;; mret tt
  | CallSaveStateFrom t st => SaveStateFrom t st
  | CallContains t => Contains t ;; mret tt
  | CallCheckNotScheduled heap isolate => CheckNotScheduled heap isolate
  | CallVisitObjectPointers heap visitor =>
      VisitObjectPointers heap visitor ;; mret tt
  end.

(** What an execution shows: protocol steps, returns and deaths, each with
    the thread that ran. *)
Inductive Obs :=
| Does (t : Ptr) (ev : Event)
| Returns (t : Ptr) (c : Call)
| Dies (t : Ptr) (f : Fatal).

(** The registry, the threads parked on the monitor, each with the call it
    is in and where it parked, and whether the process has died. *)
Record System := mkSystem {
  registry : Registry;
  waiting : Ptr -> option (Call * Outcome unit);
  dead : bool
}.

Definition boot : System :=
  {| registry := ThreadRegistry_new; waiting := fun _ => None; dead := false |}.

(** What thread [t], in call [c], shows while it holds the monitor. *)
Fixpoint observe (t : Ptr) (c : Call) (o : Outcome unit) : list Obs :=
  match o with
  | Did ev o' => Does t ev :: observe t c o'
  | Returned _ _ => [Returns t c]
  | Aborted f => [Dies t f]
  | Parked _ _ _ => []
  end.

(** The system after thread [t], in call [c], has held the monitor. *)
Fixpoint install (s : System) (t : Ptr) (c : Call) (o : Outcome unit)
  : System :=
  match o with
  | Did _ o' => install s t c o'
  | Returned _ r =>
      {| registry := r; waiting := <[t := None]> (waiting s); dead := false |}
  | Aborted _ =>
      {| registry := registry s; waiting := waiting s; dead := true |}
  | Parked r _ _ =>
      {| registry := r; waiting := <[t := Some (c, o)]> (waiting s);
         dead := false |}
  end.

(** Executions from a new registry.  The monitor makes every stretch of a
    method between two waits atomic: a thread that is not parked calls a
    method the [policy] lets it call and runs until the method returns,
    parks or dies; a parked thread wakes up, evaluates its wait condition
    and runs on or parks again.  Wake-ups need no notification here, which
    only adds executions. *)
Inductive run (policy : list Obs -> System -> Ptr -> Call -> Prop)
  : list Obs -> System -> Prop :=
| run_boot : run policy [] boot
| run_call tr s t c :
    run policy tr s -> dead s = false -> waiting s t = None ->
    policy tr s t c ->
    run policy (tr ++ observe t c (perform c (registry s)))
      (install s t c (perform c (registry s)))
| run_wake tr s t c o :
    run policy tr s -> dead s = false -> waiting s t = Some (c, o) ->
    run policy (tr ++ observe t c (resume o (registry s)))
      (install s t c (resume o (registry s))).

(** Any thread may call any method at any time. *)
Definition unrestricted : list Obs -> System -> Ptr -> Call -> Prop :=
  fun _ _ _ _ => True.

(** The thread whose pause request has returned and has not been resumed,
    as the execution so far shows it. *)
Fixpoint holder (h : option Ptr) (tr : list Obs) : option Ptr :=
  match tr with
  | [] => h
  | Returns t CallSafepointThreads :: tr' => holder (Some t) tr'
  | Does _ Resumed :: tr' => holder None tr'
  | _ :: tr' => holder h tr'
  end.

(** The caller contract of sections 4.2 and 6 of the specification: a
    thread offers a check-in, through [CheckSafepoint] or [SaveStateFrom],
    only while it has a scheduled entry, and [ResumeAllThreads] is called
    by the thread whose [SafepointThreads] has returned, once. *)
Definition contract : list Obs -> System -> Ptr -> Call -> Prop :=
  fun tr s t c =>
    match c with
    | CallCheckSafepoint | CallSaveStateFrom _ _ =>
        t ∈ scheduled_threads (registry s)
    | CallResumeAllThreads => holder None tr = Some t
    | _ => True
    end.

(** *** What an execution shows about the rendezvous *)

(** Whether a rendezvous is in progress after [tr], when [b] says so
    before it. *)
Fixpoint pending (b : bool) (tr : list Obs) : bool :=
  match tr with
  | [] => b
  | Does _ (Snapshot _) :: tr' => pending true tr'
  | Does _ Resumed :: tr' => pending false tr'
  | _ :: tr' => pending b tr'
  end.

(** No pause request counts the scheduled threads while a rendezvous is in
    progress. *)
Fixpoint serialized (b : bool) (tr : list Obs) : Prop :=
  match tr with
  | [] => True
  | Does _ (Snapshot _) :: tr' => b = false /\ serialized true tr'
  | Does _ Resumed :: tr' => serialized false tr'
  | _ :: tr' => serialized b tr'
  end.

(** A call that holds the monitor with [in_rendezvous_ = b] sets the flag
    with a [Snapshot], which it performs only when the flag is clear,
    clears it with a [Resumed], and leaves it alone otherwise. *)
Fixpoint tracks {A} (b : bool) (o : Outcome A) : Prop :=
  match o with
  | Returned _ r => in_rendezvous_ r = b
  | Aborted _ => True
  | Did (Snapshot _) o' => b = false /\ tracks true o'
  | Did Resumed o' => tracks false o'
  | Did CheckedIn o' => tracks b o'
  | Parked r c k =>
      in_rendezvous_ r = b
      /\ forall r', c r' = false -> tracks (in_rendezvous_ r') (k r')
  end.

Definition wakeable {A} (o : Outcome A) : Prop :=
  match o with
  | Parked _ c k => forall r', c r' = false -> tracks (in_rendezvous_ r') (k r')
  | _ => False
  end.

(** The last pause request [tr] shows, with the threads it counted. *)
Fixpoint last_request (q : option (Ptr * list Ptr)) (tr : list Obs)
  : option (Ptr * list Ptr) :=
  match tr with
  | [] => q
  | Does u (Snapshot counted) :: tr' => last_request (Some (u, counted)) tr'
  | _ :: tr' => last_request q tr'
  end.

(** The threads that have checked in since the last pause request. *)
Fixpoint checked (ch : list Ptr) (tr : list Obs) : list Ptr :=
  match tr with
  | [] => ch
  | Does _ (Snapshot _) :: tr' => checked [] tr'
  | Does t CheckedIn :: tr' => checked (t :: ch) tr'
  | _ :: tr' => checked ch tr'
  end.

(** Whenever [SafepointThreads] returns to the thread of the last pause
    request, every thread that request counted has checked in since; and
    whoever clears [in_rendezvous_] is the thread of the last pause
    request. *)
Fixpoint orderly (q : option (Ptr * list Ptr)) (ch : list Ptr)
    (tr : list Obs) : Prop :=
  match tr with
  | [] => True
  | Does u (Snapshot counted) :: tr' => orderly (Some (u, counted)) [] tr'
  | Does t CheckedIn :: tr' => orderly q (t :: ch) tr'
  | Does v Resumed :: tr' =>
      (exists counted, q = Some (v, counted)) /\ orderly q ch tr'
  | Returns t CallSafepointThreads :: tr' =>
      (forall counted, q = Some (t, counted) -> counted ⊆ ch)
      /\ orderly q ch tr'
  | _ :: tr' => orderly q ch tr'
  end.

(** *** Where a thread can be parked *)

Inductive Shape :=
| RequestQueued
    (** in [SafepointThreads], waiting for an older rendezvous to end *)
| RequestPending
    (** in [SafepointThreads], waiting for [remaining_] to reach zero *)
| CheckedInAt (my_round : Z) (then_detach : option (Ptr * State))
    (** checked in, in [CheckSafepoint] or in [SaveStateFrom] *)
| AttachQueued (heap : Heap) (junk : State) (t : Ptr)
    (** in [RestoreStateTo], waiting for the rendezvous to end *).

Definition shape_cond (sh : Shape) : Registry -> bool :=
  match sh with
  | RequestQueued | AttachQueued _ _ _ => in_rendezvous_
  | RequestPending => fun r => 0 <? remaining_ r
  | CheckedInAt m _ => fun r => in_rendezvous_ r && (round_ r =? m)
  end.

Definition shape_cont (sh : Shape) : Registry -> Outcome unit :=
  match sh with
  | RequestQueued => SafepointThreads_after_wait
  | RequestPending | CheckedInAt _ None => fun r => Returned tt r
  | CheckedInAt _ (Some (t, st)) => SaveStateFrom_after_checkin t st
  | AttachQueued heap junk t =>
      RestoreStateTo_after_wait heap junk t ;; mret tt
  end.

Definition shape_call (sh : Shape) : Call :=
  match sh with
  | RequestQueued | RequestPending => CallSafepointThreads
  | CheckedInAt _ None => CallCheckSafepoint
  | CheckedInAt _ (Some (t, st)) => CallSaveStateFrom t st
  | AttachQueued heap junk t => CallRestoreStateTo heap junk t
  end.

(** [o] is a thread parked in state [r] at [sh]. *)
Definition parked_at (sh : Shape) (r : Registry) (o : Outcome unit) : Prop :=
  exists cond k,
    o = Parked r cond k
    /\ (forall r', cond r' = shape_cond sh r')
    /\ (forall r', k r' = shape_cont sh r').

(** The registry after steps 2 to 4 of RequestAndWaitForPause. *)
Definition snapshot_taken (r : Registry) : Registry :=
  {| entries_ := entries_ r;
     in_rendezvous_ := true;
     remaining_ := CountScheduledLocked r;
     round_ := round_ r + 1 |}.

(** What a thread does while it holds the monitor in state [r], in call
    [c]: [before] and [after] say where it was and where it is parked. *)
Inductive stretch (r : Registry) (c : Call) (before : option Shape)
  : Outcome unit -> option Shape -> Prop :=
| stretch_abort f :
    stretch r c before (Aborted f) None
| stretch_return r' :
    c <> CallSafepointThreads ->
    in_rendezvous_ r' = in_rendezvous_ r ->
    remaining_ r' = remaining_ r ->
    round_ r' = round_ r ->
    (unique_threads r -> unique_threads r') ->
    (in_rendezvous_ r = true ->
     scheduled_threads r' ⊆ scheduled_threads r) ->
    (forall m rest, before = Some (CheckedInAt m rest) ->
                    in_rendezvous_ r && (round_ r =? m) = false) ->
    stretch r c before (Returned tt r') None
| stretch_request_return :
    c = CallSafepointThreads ->
    before = Some RequestPending ->
    remaining_ r <= 0 ->
    stretch r c before (Returned tt r) None
| stretch_park o sh :
    c = shape_call sh ->
    parked_at sh r o ->
    before = Some sh \/
    (before = None /\ sh <> RequestPending /\
     forall m rest, sh <> CheckedInAt m rest) ->
    stretch r c before o (Some sh)
| stretch_checkin o rest :
    before = None ->
    shape_call (CheckedInAt (round_ r) rest) = c ->
    in_rendezvous_ r = true ->
    parked_at (CheckedInAt (round_ r) rest)
      (set_remaining (remaining_ r - 1) r) o ->
    stretch r c before (Did CheckedIn o)
      (Some (CheckedInAt (round_ r) rest))
| stretch_snapshot_return :
    c = CallSafepointThreads ->
    in_rendezvous_ r = false ->
    CountScheduledLocked r <= 0 ->
    stretch r c before
      (Did (Snapshot (scheduled_threads r)) (Returned tt (snapshot_taken r)))
      None
| stretch_snapshot_park o :
    c = CallSafepointThreads ->
    in_rendezvous_ r = false ->
    parked_at RequestPending (snapshot_taken r) o ->
    stretch r c before (Did (Snapshot (scheduled_threads r)) o)
      (Some RequestPending)
| stretch_resume :
    c = CallResumeAllThreads ->
    before = None ->
    stretch r c before
      (Did Resumed (Returned tt (set_in_rendezvous false r))) None.

(** What the proof of the rendezvous property maintains: [shp] says where
    each parked thread is. *)
Record rendezvous_inv (tr : list Obs) (s : System)
    (shp : Ptr -> option Shape) : Prop := {
  inv_unique : unique_threads (registry s);
  inv_flag : in_rendezvous_ (registry s) = pending false tr;
  inv_shapes : forall t,
    match waiting s t, shp t with
    | None, None => True
    | Some (c, o), Some sh => c = shape_call sh /\ exists r, parked_at sh r o
    | _, _ => False
    end;
  inv_rendezvous :
    pending false tr = true ->
    exists u counted,
      last_request None tr = Some (u, counted)
      /\ remaining_ (registry s) =
           Z.of_nat (length counted) - Z.of_nat (length (checked [] tr))
      /\ NoDup counted
      /\ NoDup (checked [] tr)
      /\ checked [] tr ⊆ counted
      /\ scheduled_threads (registry s) ⊆ counted
      /\ (forall t, t ∈ checked [] tr ->
            exists rest,
              shp t = Some (CheckedInAt (round_ (registry s)) rest))
      /\ (forall t, shp t = Some RequestPending ->
            t = u /\ holder None tr = None)
      /\ (forall h, holder None tr = Some h -> h = u);
  inv_quiet :
    pending false tr = false ->
    holder None tr = None /\ forall t, shp t <> Some RequestPending
}.

(** *** What calls do to the table *)

(** Every stretch of a call, from the registry it finds when it takes the
    monitor to the one it leaves when it parks or returns, is in [R]. *)
Fixpoint keeps {A} (R : Registry -> Registry -> Prop) (r : Registry)
    (o : Outcome A) : Prop :=
  match o with
  | Returned _ r' => R r r'
  | Aborted _ => True
  | Did _ o' => keeps R r o'
  | Parked r' _ k => R r r' /\ forall r2, keeps R r2 (k r2)
  end.

(** The threads of the table of [r'] are those of [r], in the same places,
    with at most one more at the end. *)
Definition extends (r r' : Registry) : Prop :=
  exists added,
    thread <$> entries_ r' = (thread <$> entries_ r) ++ added
    /\ (length added <= 1)%nat.

(** The check of lines 57-60 on the current and the saved
    [top_exit_frame_info]. *)
Definition marker_ok (cur saved : Z) : Prop :=
  cur = saved \/ cur = 0 \/ cur > saved.

(** The threads inside the isolate after the calls [ops], starting from
    the threads [now]; [None] when some call attaches a thread that is
    inside or detaches one that is not. *)
Fixpoint bracket (now : list Ptr) (ops : list Op) : option (list Ptr) :=
  match ops with
  | [] => Some now
  | Attach _ _ t :: ops' =>
      if decide (t ∈ now) then None else bracket (t :: now) ops'
  | Detach t _ :: ops' =>
      if decide (t ∈ now)
      then bracket (filter (fun x => x <> t) now) ops'
      else None
  end.

(** The threads the calls [ops] attach, each once, in the order of their
    first attach, after the threads [known]. *)
Fixpoint roster (known : list Ptr) (ops : list Op) : list Ptr :=
  match ops with
  | [] => known
  | Attach _ _ t :: ops' =>
      roster (if decide (t ∈ known) then known else known ++ [t]) ops'
  | Detach _ _ :: ops' => roster known ops'
  end.

(** Two entries that line 114 cannot tell apart: both scheduled, on
    threads with the same live zone, or both unscheduled with the same
    saved zone. *)
Definition same_zone (heap heap' : Heap) (e e' : Entry) : Prop :=
  scheduled e = scheduled e'
  /\ if scheduled e
     then thread_zone (heap (thread e)) = thread_zone (heap' (thread e'))
     else zone (state e) = zone (state e').

(** The thread an attach or a detach is called for. *)
Definition op_thread (op : Op) : Ptr :=
  match op with
  | Attach _ _ t => t
  | Detach t _ => t
  end.

(** Two entries for the same thread that differ at most in the saved
    state of a scheduled entry. *)
Definition alike_entry (e e' : Entry) : Prop :=
  thread e = thread e'
  /\ scheduled e = scheduled e'
  /\ (scheduled e = false -> state e = state e').

(** Two registries that differ at most in the saved states of their
    scheduled entries. *)
Definition alike (r r' : Registry) : Prop :=
  Forall2 alike_entry (entries_ r) (entries_ r')
  /\ in_rendezvous_ r = in_rendezvous_ r'
  /\ remaining_ r = remaining_ r'
  /\ round_ r = round_ r'.


(** Unfolds a method down to the registry it leaves. *)
Ltac run :=
  unfold RestoreStateTo, RestoreStateTo_after_wait, SaveStateFrom,
    SaveStateFrom_after_checkin, CheckSafepoint, CheckSafepointLocked,
    Contains, CheckNotScheduled, VisitObjectPointers, SafepointThreads,
    SafepointThreads_after_wait, ResumeAllThreads, mbind, M_bind, mret,
    M_ret, gets, modify, did, wait_while, ASSERT, FATAL;
  simpl.

(** ** The entry table: lookup *)

Lemma find_from_None i t (es : list Entry) :
  find_from i t es = None <-> Forall (fun e => thread e <> t) es.
Proof.
  revert i; induction es as [|e es IH]; intros i; simpl.
  - split; [constructor | done].
  - destruct (Z.eqb_spec (thread e) t) as [Heq|Hne].
    + split; [done | intros H; inversion H; subst; contradiction].
    + rewrite IH. split; [by constructor | by inversion 1].
Qed.

Lemma find_from_Some i t (es : list Entry) j e :
  find_from i t es = Some (j, e) ->
  (i <= j)%nat /\ es !! (j - i)%nat = Some e /\ thread e = t.
Proof.
  revert i; induction es as [|x es IH]; intros i; simpl; [done|].
  destruct (Z.eqb_spec (thread x) t) as [Heq|Hne].
  - intros [= <- <-]. by rewrite Nat.sub_diag.
  - intros H. apply IH in H as (Hle & Hl & Ht).
    split; [lia|]. split; [|done].
    replace (j - i)%nat with (S (j - S i)) by lia. done.
Qed.

Lemma FindEntry_Some t (es : list Entry) j e :
  FindEntry t es = Some (j, e) -> es !! j = Some e /\ thread e = t.
Proof.
  intros H. apply find_from_Some in H as (_ & Hl & Ht).
  by rewrite Nat.sub_0_r in Hl.
Qed.

Lemma find_from_elem i t (es : list Entry) :
  is_Some (find_from i t es) <-> t ∈ thread <$> es.
Proof.
  destruct (find_from i t es) as [[j e]|] eqn:H.
  - split; [intros _|by eauto].
    apply find_from_Some in H as (_ & Hl & <-).
    apply list_elem_of_fmap. exists e. split; [done|].
    by eapply list_elem_of_lookup_2.
  - split; [by intros []|]. intros Hin.
    apply find_from_None in H. apply list_elem_of_fmap in Hin as (e & -> & He).
    rewrite Forall_forall in H. by destruct (H e He).
Qed.

(** Overwriting the entry [FindEntry] returned with one for the same
    thread: the lookup now returns the new entry, at the same index. *)
Lemma find_from_insert_same i t (es : list Entry) j e e' :
  find_from i t es = Some (j, e) -> thread e' = t ->
  find_from i t (<[(j - i)%nat := e']> es) = Some (j, e').
Proof.
  revert i; induction es as [|x es IH]; intros i; simpl; [done|].
  destruct (Z.eqb_spec (thread x) t) as [Heq|Hne].
  - intros [= <- <-] Ht. rewrite Nat.sub_diag. simpl.
    by rewrite Ht, Z.eqb_refl.
  - intros H Ht. pose proof (find_from_Some _ _ _ _ _ H) as (Hle & _ & _).
    replace (j - i)%nat with (S (j - S i)) by lia. simpl.
    destruct (Z.eqb_spec (thread x) t); [done|]. by apply IH.
Qed.

Lemma FindEntry_insert_same t (es : list Entry) j e e' :
  FindEntry t es = Some (j, e) -> thread e' = t ->
  FindEntry t (<[j := e']> es) = Some (j, e').
Proof.
  intros H Ht. unfold FindEntry.
  rewrite <- (Nat.sub_0_r j) at 1. by eapply find_from_insert_same.
Qed.

Lemma find_from_app_new i t (es : list Entry) e :
  find_from i t es = None -> thread e = t ->
  find_from i t (es ++ [e]) = Some ((i + length es)%nat, e).
Proof.
  revert i; induction es as [|x es IH]; intros i; simpl.
  - intros _ ->. by rewrite Z.eqb_refl, Nat.add_0_r.
  - destruct (thread x =? t); [done|]. intros H Ht.
    rewrite IH by done. f_equal. f_equal. lia.
Qed.

Lemma FindEntry_app_new t (es : list Entry) e :
  FindEntry t es = None -> thread e = t ->
  FindEntry t (es ++ [e]) = Some (length es, e).
Proof. intros. unfold FindEntry. by rewrite find_from_app_new. Qed.

(** ** Attach and detach *)

(** A call of [RestoreStateTo] made during a rendezvous parks, and when it
    is woken after the rendezvous it does what a call made then does. *)
Lemma RestoreStateTo_woken heap junk t r0 r :
  in_rendezvous_ r0 = true -> in_rendezvous_ r = false ->
  resume (RestoreStateTo heap junk t r0) r = RestoreStateTo heap junk t r.
Proof. intros H0 H. run. rewrite H0. simpl. by rewrite H. Qed.

(** A call of [SaveStateFrom] made during a rendezvous checks in and parks
    with [remaining_] decremented. *)
Lemma SaveStateFrom_parks t st r0 :
  in_rendezvous_ r0 = true ->
  exists k,
    SaveStateFrom t st r0 =
      Did CheckedIn
        (Parked (set_remaining (remaining_ r0 - 1) r0)
           (fun r => in_rendezvous_ r && (round_ r =? round_ r0)) k)
    /\ forall r, k r = SaveStateFrom_after_checkin t st r.
Proof.
  intros H0.
  unfold SaveStateFrom, CheckSafepointLocked, mbind, M_bind, gets, modify,
    did, wait_while, mret, M_ret.
  simpl. rewrite H0. simpl. rewrite H0, Z.eqb_refl. simpl.
  eexists. split; [reflexivity|]. done.
Qed.

(** C8 (first attach).  When the table has no entry for [t], a call of
    [RestoreStateTo] for [t] that runs outside a rendezvous appends exactly
    one entry, for [t] and with [scheduled = true], returns [false]
    without writing [*state], and leaves every earlier entry as it was.
    A call made while a rendezvous is in progress does the same when it is
    woken in such a state. *)
Theorem RestoreStateTo_first_attach heap junk t r :
  FindEntry t (entries_ r) = None ->
  in_rendezvous_ r = false ->
  let new_entry :=
    {| thread := t; scheduled := true;
       state := if DEBUG then zapped else junk |} in
  let r' := set_entries (entries_ r ++ [new_entry]) r in
  RestoreStateTo heap junk t r = Returned None r'
  /\ (forall r0, in_rendezvous_ r0 = true ->
        resume (RestoreStateTo heap junk t r0) r = Returned None r')
  /\ FindEntry t (entries_ r') = Some (length (entries_ r), new_entry)
  /\ (forall i e, entries_ r !! i = Some e -> entries_ r' !! i = Some e)
  /\ length (entries_ r') = S (length (entries_ r)).
Proof.
  intros Hnone Hq new_entry r'.
  assert (Hcall : RestoreStateTo heap junk t r = Returned None r').
  { run. rewrite Hq. simpl. by rewrite Hnone. }
  split; [done|]. split.
  { intros r0 H0. by rewrite RestoreStateTo_woken. }
  split; [by apply FindEntry_app_new|]. split.
  - intros i e Hi. simpl. by apply lookup_app_l_Some.
  - simpl. rewrite length_app. simpl. lia.
Qed.

(** Outside a rendezvous the check-in of line 84 does nothing. *)
Lemma SaveStateFrom_quiet t st r :
  in_rendezvous_ r = false ->
  SaveStateFrom t st r = SaveStateFrom_after_checkin t st r.
Proof.
  intros Hq.
  unfold SaveStateFrom, CheckSafepointLocked, mbind, M_bind, gets, mret, M_ret.
  simpl. by rewrite Hq.
Qed.

(** A call of [SaveStateFrom] that checked in goes on from line 85 when
    the rendezvous it checked into is over. *)
Lemma SaveStateFrom_woken t st r0 r :
  in_rendezvous_ r0 = true ->
  in_rendezvous_ r && (round_ r =? round_ r0) = false ->
  resume (SaveStateFrom t st r0) r = SaveStateFrom_after_checkin t st r.
Proof.
  intros H0 Hw. destruct (SaveStateFrom_parks t st r0 H0) as (k & -> & Hk).
  simpl. by rewrite Hw.
Qed.

Lemma SaveStateFrom_after_checkin_found t st r i e :
  FindEntry t (entries_ r) = Some (i, e) ->
  SaveStateFrom_after_checkin t st r =
    if scheduled e
    then Returned tt
           (set_entries
              (<[i := {| thread := t; scheduled := false; state := st |}]>
                 (entries_ r)) r)
    else Aborted (AssertFailed 87).
Proof.
  intros Hfind. pose proof (FindEntry_Some _ _ _ _ Hfind) as [_ Ht].
  run. rewrite Hfind. simpl. destruct (scheduled e); simpl; [|done].
  by rewrite Ht.
Qed.

Lemma SaveStateFrom_after_checkin_missing t st r :
  FindEntry t (entries_ r) = None ->
  SaveStateFrom_after_checkin t st r = Aborted (AssertFailed 86).
Proof. intros Hfind. run. by rewrite Hfind. Qed.

(** C4 (detach contract).  [SaveStateFrom t st] never returns normally
    when the table has no entry for [t] or the entry is not scheduled: it
    dies in the [ASSERT] of line 86 or 87, at once outside a rendezvous and
    on waking otherwise.  When the entry found at index [i] is scheduled,
    the call returns with that entry set to [scheduled = false] and
    [state = st] and with nothing else changed. *)
Theorem SaveStateFrom_contract t st r :
  let woken_from r0 :=
    in_rendezvous_ r0 = true /\
    in_rendezvous_ r && (round_ r =? round_ r0) = false in
  ((FindEntry t (entries_ r) = None \/
    exists i e,
      FindEntry t (entries_ r) = Some (i, e) /\ scheduled e = false) ->
   ~ returns_normally (SaveStateFrom t st r)
   /\ (in_rendezvous_ r = false -> exists f, SaveStateFrom t st r = Aborted f)
   /\ (forall r0, woken_from r0 ->
         exists f, resume (SaveStateFrom t st r0) r = Aborted f))
  /\ (forall i e,
        FindEntry t (entries_ r) = Some (i, e) -> scheduled e = true ->
        let r' :=
          set_entries
            (<[i := {| thread := t; scheduled := false; state := st |}]>
               (entries_ r)) r in
        (in_rendezvous_ r = false -> SaveStateFrom t st r = Returned tt r')
        /\ (forall r0, woken_from r0 ->
              resume (SaveStateFrom t st r0) r = Returned tt r')
        /\ (forall j, j <> i -> entries_ r' !! j = entries_ r !! j)
        /\ length (entries_ r') = length (entries_ r)).
Proof.
  intros woken_from. split.
  - intros Hbad.
    assert (Hdies : exists f, SaveStateFrom_after_checkin t st r = Aborted f).
    { destruct Hbad as [Hnone | (i & e & Hfind & He)].
      - rewrite SaveStateFrom_after_checkin_missing by done. by eauto.
      - rewrite (SaveStateFrom_after_checkin_found _ _ _ _ _ Hfind), He.
        by eauto. }
    destruct Hdies as [f Hf]. split; [|split].
    + intros (a & r1 & Hret). destruct (in_rendezvous_ r) eqn:Hq.
      * destruct (SaveStateFrom_parks t st r Hq) as (k & Hk & _).
        rewrite Hk in Hret. discriminate.
      * rewrite SaveStateFrom_quiet, Hf in Hret by done. discriminate.
    + intros Hq. exists f. by rewrite SaveStateFrom_quiet.
    + intros r0 [H0 Hw]. exists f. by rewrite SaveStateFrom_woken.
  - intros i e Hfind He r'.
    assert (Hbody : SaveStateFrom_after_checkin t st r = Returned tt r').
    { by rewrite (SaveStateFrom_after_checkin_found _ _ _ _ _ Hfind), He. }
    split; [|split; [|split]].
    + intros Hq. by rewrite SaveStateFrom_quiet.
    + intros r0 [H0 Hw]. by rewrite SaveStateFrom_woken.
    + intros j Hj. simpl. by apply list_lookup_insert_ne.
    + simpl. apply length_insert.
Qed.

(** C5 (monotonicity check on re-attach).  When [RestoreStateTo] finds an
    entry for [t] whose saved [top_exit_frame_info] differs from the
    thread's current one, and the current one is neither zero nor greater
    than the saved one, the call dies in the [ASSERT] of line 58: at once
    outside a rendezvous, on waking otherwise.  It never returns
    normally. *)
Theorem RestoreStateTo_monotonicity heap junk t r i e :
  FindEntry t (entries_ r) = Some (i, e) ->
  let cur := thread_top_exit_frame_info (heap t) in
  let saved := top_exit_frame_info (state e) in
  saved <> cur -> cur <> 0 -> ~ cur > saved ->
  ~ returns_normally (RestoreStateTo heap junk t r)
  /\ (in_rendezvous_ r = false ->
      RestoreStateTo heap junk t r = Aborted (AssertFailed 58))
  /\ (forall r0, in_rendezvous_ r0 = true -> in_rendezvous_ r = false ->
        resume (RestoreStateTo heap junk t r0) r = Aborted (AssertFailed 58)).
Proof.
  intros Hfind cur saved Hne Hnz Hngt.
  assert (Hq : in_rendezvous_ r = false ->
               RestoreStateTo heap junk t r = Aborted (AssertFailed 58)).
  { intros Hq. run. rewrite Hq. simpl. rewrite Hfind. simpl.
    fold cur saved.
    destruct (Z.eqb_spec saved cur); [done|]. simpl.
    destruct (Z.eqb_spec cur 0); [done|]. simpl.
    destruct (Z.gtb_spec cur saved); [lia|]. done. }
  split; [|split; [done|]].
  - intros (a & r1 & Hret).
    destruct (in_rendezvous_ r) eqn:Hin.
    + revert Hret. run. rewrite Hin. simpl. discriminate.
    + rewrite Hq in Hret; done.
  - intros r0 H0 Hin. rewrite RestoreStateTo_woken by done. by apply Hq.
Qed.

(** C1 (detach, then re-attach), as amended: the re-attach must also pass
    the check of lines 57-60.  Let [t] have a scheduled entry when
    [SaveStateFrom t st] runs lines 85-89, at once outside a rendezvous or
    on waking from one.  The call returns and leaves the entry detached
    with [st].  If the thread then calls [RestoreStateTo] and gets past the
    wait of lines 49-51 in any state [r1'] in which its entry is as the
    detach left it, and its current [top_exit_frame_info] equals the saved
    one, is zero or is greater than it, the call returns [true] with
    exactly [st] and leaves the entry of [t] with [scheduled = true]. *)
Theorem detach_attach_roundtrip heap junk t st r i e :
  FindEntry t (entries_ r) = Some (i, e) ->
  scheduled e = true ->
  let cur := thread_top_exit_frame_info (heap t) in
  cur = top_exit_frame_info st \/ cur = 0 \/ cur > top_exit_frame_info st ->
  let detached := {| thread := t; scheduled := false; state := st |} in
  let r1 := set_entries (<[i := detached]> (entries_ r)) r in
  (in_rendezvous_ r = false -> SaveStateFrom t st r = Returned tt r1)
  /\ (forall r0,
        in_rendezvous_ r0 = true ->
        in_rendezvous_ r && (round_ r =? round_ r0) = false ->
        resume (SaveStateFrom t st r0) r = Returned tt r1)
  /\ FindEntry t (entries_ r1) = Some (i, detached)
  /\ forall r1' i',
       FindEntry t (entries_ r1') = Some (i', detached) ->
       in_rendezvous_ r1' = false ->
       exists r2 e2,
         RestoreStateTo heap junk t r1' = Returned (Some st) r2
         /\ (forall r0, in_rendezvous_ r0 = true ->
               resume (RestoreStateTo heap junk t r0) r1'
               = Returned (Some st) r2)
         /\ FindEntry t (entries_ r2) = Some (i', e2)
         /\ thread e2 = t /\ scheduled e2 = true.
Proof.
  intros Hfind He cur Hmono detached r1.
  assert (Hbody : SaveStateFrom_after_checkin t st r = Returned tt r1).
  { by rewrite (SaveStateFrom_after_checkin_found _ _ _ _ _ Hfind), He. }
  split; [intros Hq; by rewrite SaveStateFrom_quiet|].
  split; [intros r0 H0 Hw; by rewrite SaveStateFrom_woken|].
  split; [simpl; by eapply FindEntry_insert_same|].
  intros r1' i' Hfind' Hq'.
  set (e2 := {| thread := t; scheduled := true;
                state := if DEBUG then zapped else st |}).
  exists (set_entries (<[i' := e2]> (entries_ r1')) r1'), e2.
  assert (Hcall : RestoreStateTo heap junk t r1' =
            Returned (Some st) (set_entries (<[i' := e2]> (entries_ r1')) r1')).
  { run. rewrite Hq'. simpl. rewrite Hfind'. simpl. fold cur.
    destruct (Z.eqb_spec (top_exit_frame_info st) cur) as [Heq|Hne]; simpl;
      [done|].
    destruct (Z.eqb_spec cur 0) as [Hz|Hnz]; simpl; [done|].
    destruct (Z.gtb_spec cur (top_exit_frame_info st)); [done|lia]. }
  split; [done|]. split.
  { intros r0 H0. by rewrite RestoreStateTo_woken. }
  split; [|done]. simpl. by eapply FindEntry_insert_same.
Qed.

(** ** Diagnostics *)

Lemma check_not_scheduled_loop_spec heap isolate (es : list Entry) r :
  check_not_scheduled_loop heap isolate es r =
    match list_find (fun e => scheduled e = true) es with
    | Some (_, e) =>
        Aborted (StillScheduled isolate (thread e)
                   (thread_isolate (heap (thread e))))
    | None => Returned tt r
    end.
Proof.
  induction es as [|x es IH]; simpl; [done|].
  unfold mbind, M_bind. destruct (scheduled x) eqn:Hx; simpl; [done|].
  unfold mret, M_ret. simpl. rewrite IH.
  by destruct (list_find _ es) as [[? ?]|].
Qed.

(** C7 (teardown assertion).  [CheckNotScheduled] dies in the [FATAL3] of
    line 102 exactly when some entry has [scheduled = true]; the error
    names the isolate passed in, the thread of a scheduled entry (the first
    in the table) and that thread's isolate.  When every entry has
    [scheduled = false] the call returns and the registry is unchanged. *)
Theorem CheckNotScheduled_spec heap isolate r :
  ((exists e, e ∈ entries_ r /\ scheduled e = true) <->
   exists f, CheckNotScheduled heap isolate r = Aborted f)
  /\ (forall f, CheckNotScheduled heap isolate r = Aborted f ->
       exists i e,
         entries_ r !! i = Some e /\ scheduled e = true
         /\ (forall j y, entries_ r !! j = Some y -> (j < i)%nat ->
               scheduled y = false)
         /\ f = StillScheduled isolate (thread e)
                  (thread_isolate (heap (thread e))))
  /\ ((forall e, e ∈ entries_ r -> scheduled e = false) <->
      CheckNotScheduled heap isolate r = Returned tt r).
Proof.
  assert (Heq : CheckNotScheduled heap isolate r =
                check_not_scheduled_loop heap isolate (entries_ r) r) by done.
  rewrite Heq, check_not_scheduled_loop_spec.
  destruct (list_find _ (entries_ r)) as [[i e]|] eqn:Hfind.
  - apply list_find_Some in Hfind as (Hi & He & Hfirst).
    split; [|split].
    + split; [by eauto|]. intros _. exists e. split; [|done].
      by eapply list_elem_of_lookup_2.
    + intros f [= <-]. exists i, e. repeat split; try done.
      intros j y Hj Hlt. specialize (Hfirst j y Hj Hlt).
      by destruct (scheduled y).
    + split; [|done]. intros Hall.
      assert (e ∈ entries_ r) as Hin by by eapply list_elem_of_lookup_2.
      rewrite (Hall e Hin) in He. done.
  - apply list_find_None in Hfind. rewrite Forall_forall in Hfind.
    split; [|split].
    + split; [|by intros [? ?]]. intros (e & Hin & He).
      by destruct (Hfind e Hin).
    + done.
    + split; [done|]. intros _ e Hin. specialize (Hfind e Hin).
      by destruct (scheduled e).
Qed.

(** ** Root visitation *)

Lemma visit_loop_spec heap (es : list Entry) visitor :
  visit_loop heap es visitor =
    visitor ++ filter (fun z => z <> NULL) (zone_of heap <$> es).
Proof.
  revert visitor; induction es as [|e es IH]; intros visitor; simpl.
  - by rewrite app_nil_r.
  - rewrite IH. rewrite filter_cons.
    destruct (Z.eqb_spec (zone_of heap e) NULL) as [Heq|Hne]; simpl.
    + by rewrite decide_False by (by intros []).
    + rewrite decide_True by done. by rewrite <- app_assoc.
Qed.

Lemma VisitObjectPointers_eq heap visitor r :
  VisitObjectPointers heap visitor r =
    Returned
      (visitor ++ filter (fun z => z <> NULL) (zone_of heap <$> entries_ r)) r.
Proof. run. by rewrite visit_loop_spec. Qed.

(** C3 (root visitation), as amended: entries whose zone pointer is [NULL]
    are not visited.  One call of [VisitObjectPointers] calls the visitor,
    in table order and once per entry, on the zone line 114 selects for
    each entry for which that zone is not [NULL]: the thread's live zone
    for a scheduled entry, the saved zone otherwise.  It returns at once
    whatever the rendezvous fields hold and changes nothing.  When no
    selected zone is [NULL], that is one visit for each of the scheduled
    and each of the unscheduled entries. *)
Theorem VisitObjectPointers_visits heap visitor r :
  VisitObjectPointers heap visitor r =
    Returned
      (visitor ++ filter (fun z => z <> NULL) (zone_of heap <$> entries_ r)) r
  /\ (forall b n k,
        VisitObjectPointers heap visitor
          (set_round k (set_remaining n (set_in_rendezvous b r))) =
        Returned
          (visitor ++ filter (fun z => z <> NULL) (zone_of heap <$> entries_ r))
          (set_round k (set_remaining n (set_in_rendezvous b r))))
  /\ (Forall (fun e => zone_of heap e <> NULL) (entries_ r) ->
      VisitObjectPointers heap visitor r =
        Returned (visitor ++ (zone_of heap <$> entries_ r)) r
      /\ length (zone_of heap <$> entries_ r) =
           (length (filter (fun e => scheduled e = true) (entries_ r)) +
            length (filter (fun e => scheduled e = false) (entries_ r)))%nat).
Proof.
  pose proof (VisitObjectPointers_eq heap visitor) as Hcall.
  split; [apply Hcall|]. split; [intros b n k; by rewrite Hcall|].
  intros Hall. split.
  - rewrite Hcall. do 2 f_equal. revert Hall.
    generalize (entries_ r) as es. intros es Hall.
    induction Hall as [|e es He _ IH]; [done|].
    rewrite fmap_cons, filter_cons, decide_True by done. by rewrite IH.
  - rewrite length_fmap. clear.
    induction (entries_ r) as [|e es IH]; simpl; [done|].
    rewrite !filter_cons.
    destruct (scheduled e); repeat case_decide; try done; simpl in *; lia.
Qed.

(** C10 (NULL zones are skipped).  An entry for which line 114 selects a
    [NULL] zone takes no part in a call of [VisitObjectPointers]: the call
    returns, and the visitor has seen what it sees when that entry is
    taken out of the table, namely the non-[NULL] zones of the entries
    before it followed by those of the entries after it. *)
Theorem VisitObjectPointers_skips_null heap visitor r es1 e es2 :
  entries_ r = es1 ++ e :: es2 ->
  zone_of heap e = NULL ->
  exists seen,
    VisitObjectPointers heap visitor r = Returned seen r
    /\ VisitObjectPointers heap visitor (set_entries (es1 ++ es2) r) =
         Returned seen (set_entries (es1 ++ es2) r)
    /\ seen = visitor ++ filter (fun z => z <> NULL) (zone_of heap <$> es1)
                      ++ filter (fun z => z <> NULL) (zone_of heap <$> es2).
Proof.
  intros Hes He.
  pose proof (VisitObjectPointers_eq heap visitor r) as Hr.
  pose proof (VisitObjectPointers_eq heap visitor
                (set_entries (es1 ++ es2) r)) as Hr'.
  eexists. split; [apply Hr|].
  rewrite Hr'. simpl. rewrite Hes, !fmap_app, fmap_cons, !filter_app.
  rewrite filter_cons, decide_False by (by intros []). done.
Qed.

(** ** The table invariant *)

Lemma unique_threads_insert r i e e' :
  entries_ r !! i = Some e -> thread e' = thread e ->
  unique_threads r -> unique_threads (set_entries (<[i := e']> (entries_ r)) r).
Proof.
  unfold unique_threads. simpl. intros Hi Ht Hu.
  rewrite list_fmap_insert, Ht, list_insert_id; [done|].
  by rewrite list_lookup_fmap, Hi.
Qed.

Lemma unique_threads_add r e :
  FindEntry (thread e) (entries_ r) = None ->
  unique_threads r -> unique_threads (set_entries (entries_ r ++ [e]) r).
Proof.
  unfold unique_threads. simpl. intros Hnone Hu.
  rewrite fmap_app. apply NoDup_app. split; [done|]. split.
  - intros x Hx Hin. apply list_elem_of_singleton in Hin as ->.
    apply (find_from_elem 0) in Hx. unfold FindEntry in Hnone.
    rewrite Hnone in Hx. by destruct Hx.
  - apply NoDup_singleton.
Qed.

Lemma RestoreStateTo_after_wait_unique heap junk t r :
  unique_threads r ->
  preserves unique_threads (RestoreStateTo_after_wait heap junk t r).
Proof.
  intros Hu. run.
  destruct (FindEntry t (entries_ r)) as [[i e]|] eqn:Hfind; simpl.
  - apply FindEntry_Some in Hfind as [Hi Ht].
    destruct (negb (_ =? _)); simpl;
      [destruct (_ || _); simpl; [|done]|];
      (destruct (scheduled e); simpl; [done|]);
      by eapply unique_threads_insert.
  - by apply unique_threads_add.
Qed.

Lemma SaveStateFrom_after_checkin_unique t st r :
  unique_threads r ->
  preserves unique_threads (SaveStateFrom_after_checkin t st r).
Proof.
  intros Hu. run.
  destruct (FindEntry t (entries_ r)) as [[i e]|] eqn:Hfind; simpl; [|done].
  apply FindEntry_Some in Hfind as [Hi Ht].
  destruct (scheduled e); simpl; [|done].
  by eapply unique_threads_insert.
Qed.

(** C2 (table invariant).  A new registry has at most one entry per
    thread, and each of [RestoreStateTo], [SaveStateFrom], [Contains],
    [CheckNotScheduled] and [VisitObjectPointers], called in a state with
    at most one entry per thread, leaves such a state every time it
    releases the monitor: when it parks and when it returns. *)
Theorem unique_threads_invariant :
  unique_threads ThreadRegistry_new
  /\ forall r, unique_threads r ->
       (forall heap junk t,
          preserves unique_threads (RestoreStateTo heap junk t r))
       /\ (forall t st, preserves unique_threads (SaveStateFrom t st r))
       /\ (forall t, preserves unique_threads (Contains t r))
       /\ (forall heap isolate,
            preserves unique_threads (CheckNotScheduled heap isolate r))
       /\ (forall heap visitor,
            preserves unique_threads (VisitObjectPointers heap visitor r)).
Proof.
  split; [apply NoDup_nil_2|]. intros r Hu. repeat split.
  - intros heap junk t.
    unfold RestoreStateTo, mbind, M_bind, wait_while.
    destruct (in_rendezvous_ r); simpl.
    + split; [done|]. intros r' Hu'.
      by apply RestoreStateTo_after_wait_unique.
    + by apply RestoreStateTo_after_wait_unique.
  - intros t st.
    unfold SaveStateFrom, CheckSafepointLocked, mbind, M_bind, gets, modify,
      did, wait_while, mret, M_ret.
    simpl. destruct (in_rendezvous_ r) eqn:Hq; simpl.
    + rewrite Hq, Z.eqb_refl. simpl. split; [done|]. intros r' Hu'.
      by apply SaveStateFrom_after_checkin_unique.
    + by apply SaveStateFrom_after_checkin_unique.
  - intros t. by run.
  - intros heap isolate.
    change (CheckNotScheduled heap isolate r)
      with (check_not_scheduled_loop heap isolate (entries_ r) r).
    rewrite check_not_scheduled_loop_spec.
    by destruct (list_find _ _) as [[? ?]|].
  - intros heap visitor. by run.
Qed.

(** ** Membership *)

Lemma Contains_spec t r :
  Contains t r = Returned (bool_decide (t ∈ thread <$> entries_ r)) r.
Proof.
  run. f_equal. apply bool_decide_ext. apply find_from_elem.
Qed.

(** Outside a rendezvous an attach or a detach returns or dies; when it
    returns, the registry is still outside a rendezvous and the threads
    with an entry are those that had one, and the attached thread. *)
Lemma run_op_quiescent op r :
  in_rendezvous_ r = false ->
  match run_op op r with
  | Returned _ r' =>
      in_rendezvous_ r' = false
      /\ forall t, t ∈ thread <$> entries_ r' <->
                   t ∈ thread <$> entries_ r \/ t ∈ attached [op]
  | Aborted _ => True
  | _ => False
  end.
Proof.
  intros Hq. destruct op as [heap junk t|t st]; simpl.
  - run. rewrite Hq. simpl.
    destruct (FindEntry t (entries_ r)) as [[i e]|] eqn:Hfind; simpl.
    + pose proof (FindEntry_Some _ _ _ _ Hfind) as [Hi Ht].
      assert (Hsame : forall e' : Entry, thread e' = thread e ->
                thread <$> <[i := e']> (entries_ r) = thread <$> entries_ r).
      { intros e' He'. rewrite list_fmap_insert, He', list_insert_id; [done|].
        by rewrite list_lookup_fmap, Hi. }
      assert (Hin : t ∈ thread <$> entries_ r).
      { apply (find_from_elem 0). unfold FindEntry in Hfind.
        rewrite Hfind. by eauto. }
      destruct (negb (_ =? _)); simpl;
        [destruct (_ || _); simpl; [|done]|];
        (destruct (scheduled e); simpl; [done|]);
        (split; [done|]); intros t'; rewrite Hsame by done;
        rewrite list_elem_of_singleton; intuition congruence.
    + split; [done|]. intros t'.
      rewrite fmap_app, elem_of_app. simpl.
      rewrite !list_elem_of_singleton. tauto.
  - run. rewrite Hq. simpl.
    destruct (FindEntry t (entries_ r)) as [[i e]|] eqn:Hfind; simpl; [|done].
    pose proof (FindEntry_Some _ _ _ _ Hfind) as [Hi Ht].
    destruct (scheduled e); simpl; [|done].
    split; [done|]. intros t'.
    rewrite list_fmap_insert. simpl. rewrite list_insert_id.
    + rewrite elem_of_nil. tauto.
    + by rewrite list_lookup_fmap, Hi.
Qed.

Lemma run_ops_quiescent ops r :
  in_rendezvous_ r = false ->
  match run_ops ops r with
  | Returned _ r' =>
      in_rendezvous_ r' = false
      /\ forall t, t ∈ thread <$> entries_ r' <->
                   t ∈ thread <$> entries_ r \/ t ∈ attached ops
  | Aborted _ => True
  | _ => False
  end.
Proof.
  revert r; induction ops as [|op ops IH]; intros r Hq; simpl.
  - split; [done|]. intros t. rewrite elem_of_nil. tauto.
  - unfold mbind, M_bind.
    pose proof (run_op_quiescent op r Hq) as Hop.
    destruct (run_op op r) as [[] r1| | |]; simpl; try done.
    destruct Hop as [Hq1 Hin1]. specialize (IH r1 Hq1).
    destruct (run_ops ops r1) as [[] r2| | |]; simpl; try done.
    destruct IH as [Hq2 Hin2]. split; [done|]. intros t.
    rewrite Hin2, Hin1.
    destruct op; simpl; rewrite ?elem_of_cons, ?elem_of_nil; tauto.
Qed.

(** C6 (Contains reflects ever-attached).  A sequence of attach and detach
    calls run on a new registry returns or dies in a failed assertion, it
    never waits; and when it returns, [Contains t] is [true] exactly for
    the threads [t] the sequence attached, whether or not they have
    detached since, and leaves the registry as it is. *)
Theorem Contains_ever_attached ops :
  (exists r,
     run_ops ops ThreadRegistry_new = Returned tt r
     /\ forall t,
          Contains t r = Returned (bool_decide (t ∈ attached ops)) r)
  \/ (exists f, run_ops ops ThreadRegistry_new = Aborted f).
Proof.
  pose proof (run_ops_quiescent ops ThreadRegistry_new eq_refl) as H.
  destruct (run_ops ops ThreadRegistry_new) as [[] r|f| |]; try done.
  - left. exists r. split; [done|].
    destruct H as [_ Hin]. intros t. rewrite Contains_spec. f_equal.
    apply bool_decide_ext. rewrite Hin. simpl. rewrite elem_of_nil. tauto.
  - right. by exists f.
Qed.

(** ** Serialization of pause requests *)

Lemma pending_app b tr1 tr2 :
  pending b (tr1 ++ tr2) = pending (pending b tr1) tr2.
Proof.
  revert b; induction tr1 as [|x tr1 IH]; intros b; simpl; [done|].
  destruct x as [t []| |]; by rewrite IH.
Qed.

Lemma serialized_app b tr1 tr2 :
  serialized b (tr1 ++ tr2) <->
  serialized b tr1 /\ serialized (pending b tr1) tr2.
Proof.
  revert b; induction tr1 as [|x tr1 IH]; intros b; simpl; [tauto|].
  destruct x as [t []| |]; rewrite IH; tauto.
Qed.

Lemma tracks_bind {A B} (f : A -> M B) (o : Outcome A) b :
  tracks b o ->
  (forall a r, tracks (in_rendezvous_ r) (f a r)) ->
  tracks b (bind_outcome f o).
Proof.
  intros Ho Hf. revert b Ho.
  induction o as [a r|e|ev o IH|r c k IH]; intros b Ho; simpl in *.
  - rewrite <- Ho. apply Hf.
  - done.
  - destruct ev; [destruct Ho; split; auto | auto | auto].
  - destruct Ho as [Hr Hk]. split; [done|]. intros r' Hc. by apply IH, Hk.
Qed.

Lemma RestoreStateTo_after_wait_tracks heap junk t r :
  tracks (in_rendezvous_ r) (RestoreStateTo_after_wait heap junk t r).
Proof.
  run. destruct (FindEntry t (entries_ r)) as [[i e]|]; simpl; [|done].
  destruct (negb (_ =? _)); simpl;
    [destruct (_ || _); simpl; [|done]|];
    by destruct (scheduled e).
Qed.

Lemma SaveStateFrom_after_checkin_tracks t st r :
  tracks (in_rendezvous_ r) (SaveStateFrom_after_checkin t st r).
Proof.
  run. destruct (FindEntry t (entries_ r)) as [[i e]|]; simpl; [|done].
  by destruct (scheduled e).
Qed.

Lemma CheckSafepointLocked_tracks r :
  tracks (in_rendezvous_ r) (CheckSafepointLocked r).
Proof.
  run. destruct (in_rendezvous_ r) eqn:Hq; simpl; [|done].
  rewrite Hq, Z.eqb_refl. simpl. done.
Qed.

Lemma SafepointThreads_after_wait_tracks r :
  in_rendezvous_ r = false -> tracks false (SafepointThreads_after_wait r).
Proof.
  intros Hq. run. split; [done|].
  destruct (0 <? _); simpl; [|done]. split; [done|]. by intros r' _.
Qed.

Lemma perform_tracks c r : tracks (in_rendezvous_ r) (perform c r).
Proof.
  destruct c as [| | |heap junk t|t st|t|heap isolate|heap visitor]; simpl.
  - unfold SafepointThreads, mbind, M_bind, wait_while.
    destruct (in_rendezvous_ r) eqn:Hq; simpl.
    + split; [done|]. intros r' Hq'. rewrite Hq'.
      by apply SafepointThreads_after_wait_tracks.
    + by apply SafepointThreads_after_wait_tracks.
  - by run.
  - apply CheckSafepointLocked_tracks.
  - unfold mbind, M_bind. apply tracks_bind; [|by intros].
    unfold RestoreStateTo, mbind, M_bind, wait_while.
    destruct (in_rendezvous_ r) eqn:Hq; simpl.
    + split; [done|]. intros r' _. apply RestoreStateTo_after_wait_tracks.
    + rewrite <- Hq. apply RestoreStateTo_after_wait_tracks.
  - unfold SaveStateFrom, mbind, M_bind. apply tracks_bind.
    + apply CheckSafepointLocked_tracks.
    + intros _ r'. apply SaveStateFrom_after_checkin_tracks.
  - by run.
  - change (CheckNotScheduled heap isolate r)
      with (check_not_scheduled_loop heap isolate (entries_ r) r).
    rewrite check_not_scheduled_loop_spec.
    by destruct (list_find _ _) as [[? ?]|].
  - by run.
Qed.

Lemma resume_tracks (o : Outcome unit) now :
  wakeable o -> tracks (in_rendezvous_ now) (resume o now).
Proof.
  destruct o as [| | |r c k]; simpl; try done. intros Hk.
  destruct (c now) eqn:Hc; simpl; [done | by apply Hk].
Qed.

(** One stretch of a call, appended to an execution. *)
Lemma tracks_install s t c (o : Outcome unit) b :
  tracks b o ->
  (forall t' c' o', waiting s t' = Some (c', o') -> wakeable o') ->
  serialized b (observe t c o)
  /\ (dead (install s t c o) = false ->
      in_rendezvous_ (registry (install s t c o)) = pending b (observe t c o))
  /\ (forall t' c' o',
        waiting (install s t c o) t' = Some (c', o') -> wakeable o').
Proof.
  intros Ho Hw. revert b Ho.
  induction o as [a r|e|ev o IH|r cond k _]; intros b Ho; simpl in *.
  - split; [done|]. split; [done|]. intros t' c' o'.
    destruct (decide (t = t')) as [<-|Hne].
    + by rewrite fn_lookup_insert.
    + rewrite fn_lookup_insert_ne by done. apply Hw.
  - done.
  - destruct ev; [destruct Ho as [-> Ho]|..]; specialize (IH _ Ho); tauto.
  - destruct Ho as [Hr Hk]. split; [done|]. split; [done|]. intros t' c' o'.
    destruct (decide (t = t')) as [<-|Hne].
    + rewrite fn_lookup_insert. by intros [= <- <-].
    + rewrite fn_lookup_insert_ne by done. apply Hw.
Qed.

Lemma run_serialized policy tr s :
  run policy tr s ->
  serialized false tr
  /\ (dead s = false -> in_rendezvous_ (registry s) = pending false tr)
  /\ (forall t c o, waiting s t = Some (c, o) -> wakeable o).
Proof.
  induction 1 as [|tr s t c Hrun IH Halive Hidle Hpol
                  |tr s t c o Hrun IH Halive Hparked].
  - by repeat split.
  - destruct IH as (Hser & Hflag & Hw). specialize (Hflag Halive).
    destruct (tracks_install s t c (perform c (registry s))
                (in_rendezvous_ (registry s)) (perform_tracks _ _) Hw)
      as (Hs & Hf & Hw').
    rewrite serialized_app, pending_app, <- Hflag. by repeat split.
  - destruct IH as (Hser & Hflag & Hw). specialize (Hflag Halive).
    destruct (tracks_install s t c (resume o (registry s))
                (in_rendezvous_ (registry s))
                (resume_tracks _ _ (Hw _ _ _ Hparked)) Hw)
      as (Hs & Hf & Hw').
    rewrite serialized_app, pending_app, <- Hflag. by repeat split.
Qed.

Lemma serialized_between tr2 u counted tr3 :
  serialized true (tr2 ++ Does u (Snapshot counted) :: tr3) ->
  exists v, Does v Resumed ∈ tr2.
Proof.
  induction tr2 as [|x tr2 IH]; simpl.
  - by intros [? _].
  - destruct x as [t [cn| |]|t c|t f]; simpl.
    + by intros [? _].
    + intros H. destruct (IH H) as [v Hv]. exists v. by right.
    + intros _. exists t. by left.
    + intros H. destruct (IH H) as [v Hv]. exists v. by right.
    + intros H. destruct (IH H) as [v Hv]. exists v. by right.
Qed.

Lemma run_snapshots_serialized policy tr s tr1 u1 cn1 tr2 u2 cn2 tr3 :
  run policy tr s ->
  tr = tr1 ++ Does u1 (Snapshot cn1) :: tr2 ++ Does u2 (Snapshot cn2) :: tr3 ->
  exists v, Does v Resumed ∈ tr2.
Proof.
  intros Hrun ->. apply run_serialized in Hrun as (Hser & _).
  apply serialized_app in Hser as [_ Hser]. simpl in Hser.
  destruct Hser as [_ Hser]. by eapply serialized_between.
Qed.

(** ** Pause requests wait for every check-in *)

Lemma last_request_app q tr1 tr2 :
  last_request q (tr1 ++ tr2) = last_request (last_request q tr1) tr2.
Proof.
  revert q; induction tr1 as [|x tr1 IH]; intros q; simpl; [done|].
  destruct x as [t []| |]; by rewrite IH.
Qed.

Lemma checked_app ch tr1 tr2 :
  checked ch (tr1 ++ tr2) = checked (checked ch tr1) tr2.
Proof.
  revert ch; induction tr1 as [|x tr1 IH]; intros ch; simpl; [done|].
  destruct x as [t []| |]; by rewrite IH.
Qed.

Lemma holder_app h tr1 tr2 :
  holder h (tr1 ++ tr2) = holder (holder h tr1) tr2.
Proof.
  revert h; induction tr1 as [|x tr1 IH]; intros h; simpl; [done|].
  destruct x as [t []|t []|]; by rewrite IH.
Qed.

Lemma orderly_app q ch tr1 tr2 :
  orderly q ch (tr1 ++ tr2) <->
  orderly q ch tr1
  /\ orderly (last_request q tr1) (checked ch tr1) tr2.
Proof.
  revert q ch; induction tr1 as [|x tr1 IH]; intros q ch; simpl; [tauto|].
  destruct x as [t []|t []|]; rewrite IH; tauto.
Qed.

Lemma scheduled_unschedule (es : list Entry) i e e' :
  es !! i = Some e -> scheduled e' = false ->
  thread <$> filter (fun e => scheduled e = true) (<[i := e']> es)
  ⊆ thread <$> filter (fun e => scheduled e = true) es.
Proof.
  revert i; induction es as [|x es IH]; intros i; [done|].
  destruct i as [|i]; simpl.
  - intros [= ->] He'. rewrite !filter_cons.
    rewrite (decide_False (P := scheduled e' = true)) by (by rewrite He').
    case_decide; [|done]. rewrite fmap_cons. by apply list_subseteq_cons.
  - intros Hi He'. rewrite !filter_cons. specialize (IH i Hi He').
    case_decide; [|done]. rewrite !fmap_cons.
    intros y. rewrite !elem_of_cons. intros [->|Hy]; [by left|].
    right. by apply IH.
Qed.

Lemma SafepointThreads_after_wait_stretch r before :
  in_rendezvous_ r = false ->
  exists after,
    stretch r CallSafepointThreads before (SafepointThreads_after_wait r)
      after.
Proof.
  intros Hq.
  assert (Heq : SafepointThreads_after_wait r =
    Did (Snapshot (scheduled_threads r))
      (if 0 <? CountScheduledLocked r
       then Parked (snapshot_taken r) (fun r => 0 <? remaining_ r)
              (fun r' => Returned tt r')
       else Returned tt (snapshot_taken r))) by reflexivity.
  rewrite Heq. destruct (Z.ltb_spec 0 (CountScheduledLocked r)).
  - eexists. apply stretch_snapshot_park; [done..|].
    by eexists _, _.
  - eexists. by apply stretch_snapshot_return.
Qed.

Lemma SaveStateFrom_after_checkin_stretch t st r before :
  (forall m rest, before = Some (CheckedInAt m rest) ->
                  in_rendezvous_ r && (round_ r =? m) = false) ->
  exists after,
    stretch r (CallSaveStateFrom t st) before
      (SaveStateFrom_after_checkin t st r) after.
Proof.
  intros Hb. run.
  destruct (FindEntry t (entries_ r)) as [[i e]|] eqn:Hfind; simpl;
    [|eexists; apply stretch_abort].
  apply FindEntry_Some in Hfind as [Hi Ht].
  destruct (scheduled e); simpl; [|eexists; apply stretch_abort].
  eexists. apply stretch_return; try done.
  - intros Hu. by eapply unique_threads_insert.
  - intros _. unfold scheduled_threads. simpl.
    by eapply scheduled_unschedule.
Qed.

Lemma RestoreStateTo_after_wait_stretch heap junk t r before :
  in_rendezvous_ r = false ->
  exists after,
    stretch r (CallRestoreStateTo heap junk t) before
      ((RestoreStateTo_after_wait heap junk t ;; mret tt) r) after.
Proof.
  intros Hq. run.
  assert (Hret : forall es',
    (unique_threads r -> unique_threads (set_entries es' r)) ->
    stretch r (CallRestoreStateTo heap junk t) before
      (Returned tt (set_entries es' r)) None).
  { intros es' Hu. apply stretch_return; try done.
    - by rewrite Hq.
    - intros m rest _. by rewrite Hq. }
  destruct (FindEntry t (entries_ r)) as [[i e]|] eqn:Hfind; simpl.
  - apply FindEntry_Some in Hfind as [Hi Ht].
    destruct (negb (_ =? _)); simpl;
      [destruct (_ || _); simpl; [|eexists; apply stretch_abort]|];
      (destruct (scheduled e); simpl; [eexists; apply stretch_abort|]);
      eexists; apply Hret; intros Hu; by eapply unique_threads_insert.
  - eexists. apply Hret. intros Hu. by apply unique_threads_add.
Qed.

Lemma call_stretch c r :
  exists after, stretch r c None (perform c r) after.
Proof.
  assert (Hsame : forall c', c' <> CallSafepointThreads ->
            stretch r c' None (Returned tt r) None).
  { intros c' Hc'. by apply stretch_return. }
  destruct c as [| | |heap junk t|t st|t|heap isolate|heap visitor]; simpl.
  - destruct (in_rendezvous_ r) eqn:Hq.
    + exists (Some RequestQueued). apply stretch_park; [done|..].
      * unfold SafepointThreads, mbind, M_bind, wait_while. rewrite Hq.
        simpl. by eexists _, _.
      * right. by repeat split.
    + replace (SafepointThreads r) with (SafepointThreads_after_wait r)
        by (unfold SafepointThreads, mbind, M_bind, wait_while;
            by rewrite Hq).
      by apply SafepointThreads_after_wait_stretch.
  - eexists. by apply stretch_resume.
  - unfold CheckSafepoint. destruct (in_rendezvous_ r) eqn:Hq.
    + exists (Some (CheckedInAt (round_ r) None)).
      run. rewrite Hq. simpl. rewrite Hq, Z.eqb_refl. simpl.
      apply stretch_checkin; try done. by eexists _, _.
    + run. rewrite Hq. simpl. eexists. by apply Hsame.
  - destruct (in_rendezvous_ r) eqn:Hq.
    + exists (Some (AttachQueued heap junk t)).
      apply stretch_park; [done|..].
      * unfold RestoreStateTo, mbind, M_bind, wait_while. rewrite Hq.
        simpl. by eexists _, _.
      * right. by repeat split.
    + replace ((RestoreStateTo heap junk t ;; mret tt) r)
        with ((RestoreStateTo_after_wait heap junk t ;; mret tt) r)
        by (unfold RestoreStateTo, mbind, M_bind, wait_while;
            by rewrite Hq).
      by apply RestoreStateTo_after_wait_stretch.
  - destruct (in_rendezvous_ r) eqn:Hq.
    + exists (Some (CheckedInAt (round_ r) (Some (t, st)))).
      unfold SaveStateFrom, CheckSafepointLocked, mbind, M_bind, gets,
        modify, did, wait_while, mret, M_ret.
      simpl. rewrite Hq. simpl. rewrite Hq, Z.eqb_refl. simpl.
      apply stretch_checkin; try done. by eexists _, _.
    + replace (SaveStateFrom t st r)
        with (SaveStateFrom_after_checkin t st r)
        by (unfold SaveStateFrom, CheckSafepointLocked, mbind, M_bind, gets,
              mret, M_ret; simpl; by rewrite Hq).
      by apply SaveStateFrom_after_checkin_stretch.
  - run. eexists. by apply Hsame.
  - change (CheckNotScheduled heap isolate r)
      with (check_not_scheduled_loop heap isolate (entries_ r) r).
    rewrite check_not_scheduled_loop_spec.
    destruct (list_find _ _) as [[? ?]|]; eexists;
      [apply stretch_abort | by apply Hsame].
  - run. eexists. by apply Hsame.
Qed.

Lemma wake_stretch sh r0 o r :
  parked_at sh r0 o ->
  exists after, stretch r (shape_call sh) (Some sh) (resume o r) after.
Proof.
  intros (cond & k & -> & Hcond & Hk). simpl. rewrite Hcond, Hk.
  destruct (shape_cond sh r) eqn:Hc.
  - exists (Some sh). apply stretch_park; [done| |by left].
    by eexists _, _.
  - destruct sh as [| |m [[t st]|]|heap junk t]; simpl in *.
    + by apply SafepointThreads_after_wait_stretch.
    + eexists. apply stretch_request_return; try done.
      by apply Z.ltb_ge.
    + apply SaveStateFrom_after_checkin_stretch.
      by intros m' rest' [= <- <-].
    + eexists. apply stretch_return; try done.
      by intros m' rest' [= <- <-].
    + by apply RestoreStateTo_after_wait_stretch.
Qed.

Lemma all_counted (counted ch : list Ptr) :
  NoDup ch -> ch ⊆ counted ->
  Z.of_nat (length counted) - Z.of_nat (length ch) <= 0 ->
  counted ⊆ ch.
Proof.
  intros Hnd Hsub Hlen.
  assert (ch ⊆+ counted) as Hms by by apply NoDup_submseteq.
  assert (ch ≡ₚ counted) as Hperm.
  { apply submseteq_length_Permutation; [done|lia]. }
  intros x Hx. by rewrite Hperm.
Qed.

Lemma scheduled_threads_NoDup r :
  unique_threads r -> NoDup (scheduled_threads r).
Proof.
  unfold unique_threads, scheduled_threads.
  induction (entries_ r) as [|x es IH]; [done|].
  rewrite fmap_cons, NoDup_cons. intros [Hx Hes].
  rewrite filter_cons. case_decide; [|by apply IH].
  rewrite fmap_cons, NoDup_cons. split; [|by apply IH].
  intros Hin. apply Hx.
  apply list_elem_of_fmap in Hin as (y & -> & Hy).
  apply list_elem_of_filter in Hy as [_ Hy].
  by apply list_elem_of_fmap_2.
Qed.

Lemma scheduled_threads_length r :
  CountScheduledLocked r = Z.of_nat (length (scheduled_threads r)).
Proof.
  unfold CountScheduledLocked, scheduled_threads. by rewrite length_fmap.
Qed.

Lemma shapes_update (w : Ptr -> option (Call * Outcome unit))
    (shp : Ptr -> option Shape) t x after :
  (forall t',
     match w t', shp t' with
     | None, None => True
     | Some (c, o), Some sh => c = shape_call sh /\ exists r, parked_at sh r o
     | _, _ => False
     end) ->
  match x, after with
  | None, None => True
  | Some (c, o), Some sh => c = shape_call sh /\ exists r, parked_at sh r o
  | _, _ => False
  end ->
  forall t',
    match (<[t := x]> w) t', (<[t := after]> shp) t' with
    | None, None => True
    | Some (c, o), Some sh => c = shape_call sh /\ exists r, parked_at sh r o
    | _, _ => False
    end.
Proof.
  intros Hold Hnew t'. destruct (decide (t = t')) as [<-|Hne].
  - by rewrite !fn_lookup_insert.
  - rewrite !fn_lookup_insert_ne by done. apply Hold.
Qed.

Lemma inv_step tr s shp t c o after :
  rendezvous_inv tr s shp ->
  orderly None [] tr ->
  stretch (registry s) c (shp t) o after ->
  (shp t = None -> contract tr s t c) ->
  orderly None [] (tr ++ observe t c o)
  /\ (dead (install s t c o) = false ->
      rendezvous_inv (tr ++ observe t c o) (install s t c o)
        (<[t := after]> shp)).
Proof.
  intros [Hu Hflag Hsh Hrdv Hquiet] Haudit Hst Hpol.
  rewrite orderly_app.
  inversion Hst as
    [f
    |r' Hc Hq' Hrem' Hround' Hu' Hsched' Hcond
    |Hc Hbefore Hrem
    |o' sh Hc Hpark Hbefore
    |o' rest Hbefore Hc Hq Hpark
    |Hc Hq Hcount
    |o' Hc Hq Hpark
    |Hc Hbefore]; subst; simpl.
  - (* the process dies *)
    by split.
  - (* a return that is no protocol step *)
    split; [split; [done|]; by destruct c|].
    intros _. split; simpl.
    + by apply Hu'.
    + rewrite pending_app, Hq', Hflag. by destruct c.
    + apply shapes_update; [done|]. done.
    + rewrite pending_app, last_request_app, checked_app, holder_app.
      replace (pending (pending false tr) [Returns t c])
        with (pending false tr) by (by destruct c).
      replace (last_request (last_request None tr) [Returns t c])
        with (last_request None tr) by (by destruct c).
      replace (checked (checked [] tr) [Returns t c])
        with (checked [] tr) by (by destruct c).
      replace (holder (holder None tr) [Returns t c])
        with (holder None tr) by (by destruct c).
      intros Hp. destruct (Hrdv Hp)
        as (u & cn & Hlast & Hremaining & Hnd1 & Hnd2 & Hsub & Hsc & Hch & Hrp
            & Hho).
      exists u, cn. rewrite Hrem', Hround'. split_and!; try done.
      * etrans; [|exact Hsc]. apply Hsched'. by rewrite Hflag.
      * intros t' Ht'. destruct (decide (t = t')) as [<-|Hne].
        -- destruct (Hch _ Ht') as [rest Hrest].
           specialize (Hcond _ _ Hrest).
           rewrite Hflag, Hp, Z.eqb_refl in Hcond. done.
        -- rewrite fn_lookup_insert_ne by done. by apply Hch.
      * intros t'. destruct (decide (t = t')) as [<-|Hne].
        -- by rewrite fn_lookup_insert.
        -- rewrite fn_lookup_insert_ne by done. by apply Hrp.
    + rewrite pending_app, holder_app.
      replace (pending (pending false tr) [Returns t c])
        with (pending false tr) by (by destruct c).
      replace (holder (holder None tr) [Returns t c])
        with (holder None tr) by (by destruct c).
      intros Hp. destruct (Hquiet Hp) as [Hh Hno]. split; [done|].
      intros t'. destruct (decide (t = t')) as [<-|Hne].
      * by rewrite fn_lookup_insert.
      * rewrite fn_lookup_insert_ne by done. apply Hno.
  - (* SafepointThreads returns to the thread that waited for check-ins *)
    assert (Hp : pending false tr = true).
    { destruct (pending false tr) eqn:Hp; [done|].
      destruct (Hquiet eq_refl) as [_ Hno]. by destruct (Hno t). }
    destruct (Hrdv Hp)
      as (u & cn & Hlast & Hremaining & Hnd1 & Hnd2 & Hsub & Hsc & Hch & Hrp
            & Hho).
    destruct (Hrp _ Hbefore) as [-> Hh].
    split.
    { split; [done|]. split; [|done]. rewrite Hlast. intros cn' [= <-].
      apply all_counted; [done..|]. by rewrite <- Hremaining. }
    intros _. split; simpl.
    + done.
    + by rewrite pending_app.
    + by apply shapes_update.
    + rewrite pending_app, last_request_app, checked_app, holder_app. simpl.
      intros _. exists u, cn. split_and!; try done.
      * intros t' Ht'. destruct (decide (u = t')) as [<-|Hne].
        -- destruct (Hch _ Ht') as [rest Hrest]. congruence.
        -- rewrite fn_lookup_insert_ne by done. by apply Hch.
      * intros t'. destruct (decide (u = t')) as [<-|Hne].
        -- by rewrite fn_lookup_insert.
        -- rewrite fn_lookup_insert_ne by done. intros Ht'.
           by destruct (Hrp _ Ht') as [-> _].
      * by intros h [= <-].
    + rewrite pending_app. simpl. congruence.
  - (* the thread parks without a protocol step *)
    destruct Hpark as (cond & k & -> & Hcond & Hk). simpl.
    rewrite app_nil_r. split; [done|]. intros _.
    assert (Hshp : forall sh' t',
              (exists m rest, sh' = CheckedInAt m rest) \/
              sh' = RequestPending ->
              (<[t := Some sh]> shp) t' = Some sh' <-> shp t' = Some sh').
    { intros sh' t' Hsp. destruct (decide (t = t')) as [<-|Hne].
      - rewrite fn_lookup_insert.
        destruct Hbefore as [Hb|(Hb & Hn1 & Hn2)]; [by rewrite Hb|].
        rewrite Hb. split; [|done]. intros [= <-].
        destruct Hsp as [(m & rest & ->)| ->]; [|done].
        by destruct (Hn2 m rest).
      - by rewrite fn_lookup_insert_ne. }
    split; simpl.
    + done.
    + done.
    + apply shapes_update; [done|]. split; [done|]. by eexists _, _, _.
    + intros Hp. destruct (Hrdv Hp)
        as (u & cn & Hlast & Hremaining & Hnd1 & Hnd2 & Hsub & Hsc & Hch & Hrp
            & Hho).
      exists u, cn. split_and!; try done.
      * intros t' Ht'. destruct (Hch _ Ht') as [rest Hrest].
        exists rest. apply Hshp; [left; by eauto|done].
      * intros t' Ht'. apply Hrp. apply Hshp in Ht'; [done|by right].
    + intros Hp. destruct (Hquiet Hp) as [Hh Hno]. split; [done|].
      intros t' Ht'. apply Hshp in Ht'; [|by right]. by apply (Hno t').
  - (* the thread checks in *)
    destruct Hpark as (cond & k & -> & Hcond & Hk). simpl.
    split; [done|]. intros _.
    assert (Hin : t ∈ scheduled_threads (registry s)).
    { specialize (Hpol Hbefore). by destruct rest as [[]|]. }
    assert (Hp : pending false tr = true) by by rewrite <- Hflag.
    destruct (Hrdv Hp)
      as (u & cn & Hlast & Hremaining & Hnd1 & Hnd2 & Hsub & Hsc & Hch & Hrp
            & Hho).
    assert (Hfresh : t ∉ checked [] tr).
    { intros Ht. destruct (Hch _ Ht) as [rest' Hrest]. congruence. }
    split; simpl.
    + done.
    + by rewrite pending_app.
    + apply shapes_update; [done|]. split; [done|]. by eexists _, _, _.
    + rewrite pending_app, last_request_app, checked_app, holder_app. simpl.
      intros _. exists u, cn. split_and!; try done.
      * rewrite Hremaining. simpl. lia.
      * by apply NoDup_cons.
      * intros x. rewrite elem_of_cons. intros [->|Hx]; [by apply Hsc|].
        by apply Hsub.
      * intros t'. rewrite elem_of_cons.
        destruct (decide (t = t')) as [<-|Hne].
        -- intros _. rewrite fn_lookup_insert. by eauto.
        -- rewrite fn_lookup_insert_ne by done. intros [->|Ht']; [done|].
           by apply Hch.
      * intros t'. destruct (decide (t = t')) as [<-|Hne].
        -- by rewrite fn_lookup_insert.
        -- rewrite fn_lookup_insert_ne by done. by apply Hrp.
    + rewrite pending_app. simpl. congruence.
  - (* a pause request counts no scheduled thread and returns *)
    assert (Hp : pending false tr = false) by by rewrite <- Hflag.
    destruct (Hquiet Hp) as [Hh Hno].
    assert (Hnil : scheduled_threads (registry s) = []).
    { rewrite scheduled_threads_length in Hcount.
      destruct (scheduled_threads (registry s)); [done|].
      simpl in Hcount. lia. }
    split.
    { split; [done|]. split; [|done]. intros cn' [= <-]. by rewrite Hnil. }
    intros _. split; simpl.
    + done.
    + by rewrite pending_app.
    + by apply shapes_update.
    + rewrite pending_app, last_request_app, checked_app, holder_app. simpl.
      intros _. eexists _, _. split; [done|]. split_and!.
      * rewrite scheduled_threads_length. simpl. lia.
      * by apply scheduled_threads_NoDup.
      * apply NoDup_nil_2.
      * by intros x Hx%elem_of_nil.
      * done.
      * by intros x Hx%elem_of_nil.
      * intros t'. destruct (decide (t = t')) as [<-|Hne].
        -- by rewrite fn_lookup_insert.
        -- rewrite fn_lookup_insert_ne by done. intros Ht'.
           by destruct (Hno t').
      * by intros h [= <-].
    + rewrite pending_app. simpl. done.
  - (* a pause request counts the scheduled threads and waits *)
    destruct Hpark as (cond & k & -> & Hcond & Hk). simpl.
    assert (Hp : pending false tr = false) by by rewrite <- Hflag.
    destruct (Hquiet Hp) as [Hh Hno].
    split; [done|]. intros _. split; simpl.
    + done.
    + by rewrite pending_app.
    + apply shapes_update; [done|]. split; [done|]. by eexists _, _, _.
    + rewrite pending_app, last_request_app, checked_app, holder_app. simpl.
      intros _. eexists _, _. split; [done|]. split_and!.
      * rewrite scheduled_threads_length. simpl. lia.
      * by apply scheduled_threads_NoDup.
      * apply NoDup_nil_2.
      * by intros x Hx%elem_of_nil.
      * done.
      * by intros x Hx%elem_of_nil.
      * intros t'. destruct (decide (t = t')) as [<-|Hne].
        -- done.
        -- rewrite fn_lookup_insert_ne by done. intros Ht'.
           by destruct (Hno t').
      * rewrite Hh. by intros h.
    + rewrite pending_app. simpl. done.
  - (* the rendezvous is resumed *)
    specialize (Hpol Hbefore). simpl in Hpol.
    assert (Hp : pending false tr = true).
    { destruct (pending false tr) eqn:Hp; [done|].
      destruct (Hquiet eq_refl) as [Hh _]. congruence. }
    destruct (Hrdv Hp)
      as (u & cn & Hlast & Hremaining & Hnd1 & Hnd2 & Hsub & Hsc & Hch & Hrp
            & Hho).
    split.
    { split; [done|]. split; [|done]. exists cn.
      by rewrite (Hho _ Hpol). }
    intros _. split; simpl.
    + done.
    + by rewrite pending_app.
    + by apply shapes_update.
    + rewrite pending_app. simpl. done.
    + rewrite holder_app. simpl. intros _. split; [done|].
      intros t'. destruct (decide (t = t')) as [<-|Hne].
      * by rewrite fn_lookup_insert.
      * rewrite fn_lookup_insert_ne by done. intros Ht'.
        destruct (Hrp _ Ht') as [_ Hh]. congruence.
Qed.

Lemma run_rendezvous_inv tr s :
  run contract tr s ->
  orderly None [] tr
  /\ (dead s = false -> exists shp, rendezvous_inv tr s shp).
Proof.
  induction 1 as [|tr s t c Hrun IH Halive Hidle Hpol
                  |tr s t c o Hrun IH Halive Hparked].
  - split; [done|]. intros _. exists (fun _ => None).
    split; simpl; try done.
    apply NoDup_nil_2.
  - destruct IH as [Haudit Hinv]. destruct (Hinv Halive) as [shp Hshp].
    assert (Hnone : shp t = None).
    { pose proof (inv_shapes _ _ _ Hshp t) as Ht. rewrite Hidle in Ht.
      by destruct (shp t). }
    destruct (call_stretch c (registry s)) as [after Hst].
    rewrite <- Hnone in Hst.
    destruct (inv_step _ _ _ _ _ _ _ Hshp Haudit Hst (fun _ => Hpol))
      as [Haudit' Hinv'].
    split; [done|]. intros Halive'. eexists. by apply Hinv'.
  - destruct IH as [Haudit Hinv]. destruct (Hinv Halive) as [shp Hshp].
    pose proof (inv_shapes _ _ _ Hshp t) as Ht. rewrite Hparked in Ht.
    destruct (shp t) as [sh|] eqn:Hsh; [|done].
    destruct Ht as [-> [r0 Hpark]].
    destruct (wake_stretch sh r0 o (registry s) Hpark) as [after Hst].
    rewrite <- Hsh in Hst.
    destruct (inv_step _ _ _ _ _ _ _ Hshp Haudit Hst) as [Haudit' Hinv'].
    { congruence. }
    split; [done|]. intros Halive'. eexists. by apply Hinv'.
Qed.

Lemma orderly_between u counted ch tr2 tr3 :
  orderly (Some (u, counted)) ch
    (tr2 ++ Returns u CallSafepointThreads :: tr3) ->
  (forall v cn, Does v (Snapshot cn) ∉ tr2) ->
  forall t, t ∈ counted -> t ∈ ch \/ Does t CheckedIn ∈ tr2.
Proof.
  revert ch; induction tr2 as [|x tr2 IH]; intros ch; simpl.
  - intros [Hall _] _ t Ht. left. by apply (Hall counted).
  - intros Hall Hno t Ht.
    assert (Hno' : forall v cn, Does v (Snapshot cn) ∉ tr2).
    { intros v cn Hin. apply (Hno v cn). by right. }
    destruct x as [v [cn| |]|v c|v f].
    + destruct (Hno v cn). by left.
    + destruct (IH _ Hall Hno' t Ht) as [Hin|Hin].
      * apply elem_of_cons in Hin as [->|Hin]; [right; by left | by left].
      * right. by right.
    + destruct Hall as [_ Hall].
      destruct (IH _ Hall Hno' t Ht) as [Hin|Hin]; [by left|].
      right. by right.
    + assert (Hall' : orderly (Some (u, counted)) ch
                (tr2 ++ Returns u CallSafepointThreads :: tr3))
        by (destruct c; tauto).
      destruct (IH _ Hall' Hno' t Ht) as [Hin|Hin]; [by left|].
      right. by right.
    + destruct (IH _ Hall Hno' t Ht) as [Hin|Hin]; [by left|].
      right. by right.
Qed.

Lemma resumed_by_requester u counted ch tr2 v cn tr3 :
  serialized true (tr2 ++ Does v (Snapshot cn) :: tr3) ->
  orderly (Some (u, counted)) ch (tr2 ++ Does v (Snapshot cn) :: tr3) ->
  Does u Resumed ∈ tr2.
Proof.
  revert ch; induction tr2 as [|x tr2 IH]; intros ch; simpl.
  - by intros [? _].
  - destruct x as [w [cn'| |]|w c|w f]; simpl.
    + by intros [? _].
    + intros Hser Hord. right. by eapply IH.
    + intros _ [[cn' [= <- <-]] _]. by left.
    + intros Hser Hord. right. apply (IH ch); [done|]. destruct c; tauto.
    + intros Hser Hord. right. by eapply IH.
Qed.

(** C9 (rendezvous serialization), as amended: callers must keep the
    contract of sections 4.2 and 6 for the second half.  In every
    execution, whatever the callers do, [ResumeAllThreads] clears
    [in_rendezvous_] between the [remaining_] snapshots of any two pause
    requests.  In every execution in which only threads with a scheduled
    entry offer check-ins and only the thread whose pause request has
    returned resumes, that [ResumeAllThreads] is called by the thread of
    the first of the two requests, and [SafepointThreads] does not return
    to the thread that took a snapshot before each thread the snapshot
    counted has checked in. *)
Theorem rendezvous_serialized :
  (forall policy tr s tr1 u1 cn1 tr2 u2 cn2 tr3,
     run policy tr s ->
     tr = tr1 ++ Does u1 (Snapshot cn1) :: tr2
              ++ Does u2 (Snapshot cn2) :: tr3 ->
     exists v, Does v Resumed ∈ tr2)
  /\ (forall tr s tr1 u1 cn1 tr2 u2 cn2 tr3,
       run contract tr s ->
       tr = tr1 ++ Does u1 (Snapshot cn1) :: tr2
                ++ Does u2 (Snapshot cn2) :: tr3 ->
       Does u1 Resumed ∈ tr2)
  /\ (forall tr s tr1 u counted tr2 tr3,
       run contract tr s ->
       tr = tr1 ++ Does u (Snapshot counted) :: tr2
                ++ Returns u CallSafepointThreads :: tr3 ->
       (forall v cn, Does v (Snapshot cn) ∉ tr2) ->
       forall t, t ∈ counted -> Does t CheckedIn ∈ tr2).
Proof.
  split; [|split].
  - intros policy tr s tr1 u1 cn1 tr2 u2 cn2 tr3 Hrun Htr.
    by eapply run_snapshots_serialized.
  - intros tr s tr1 u1 cn1 tr2 u2 cn2 tr3 Hrun ->.
    pose proof (run_serialized _ _ _ Hrun) as (Hser & _).
    apply run_rendezvous_inv in Hrun as [Hord _].
    apply serialized_app in Hser as [_ [_ Hser]].
    apply orderly_app in Hord as [_ Hord]. simpl in Hord.
    by eapply resumed_by_requester.
  - intros tr s tr1 u counted tr2 tr3 Hrun -> Hno t Ht.
    apply run_rendezvous_inv in Hrun as [Haudit _].
    apply orderly_app in Haudit as [_ Haudit]. simpl in Haudit.
    destruct (orderly_between _ _ _ _ _ Haudit Hno t Ht) as [Hin|Hin];
      [|done].
    by apply elem_of_nil in Hin.
Qed.

(** ** More on the entry table *)

Lemma find_from_first i t (es : list Entry) j e :
  find_from i t es = Some (j, e) ->
  forall m e', (m < j - i)%nat -> es !! m = Some e' -> thread e' <> t.
Proof.
  revert i; induction es as [|x es IH]; intros i; simpl; [done|].
  destruct (Z.eqb_spec (thread x) t) as [Heq|Hne].
  - intros [= <- <-] m e' Hm. lia.
  - intros H m e' Hm Hl.
    pose proof (find_from_Some _ _ _ _ _ H) as (Hle & _ & _).
    destruct m as [|m]; simpl in Hl; [by injection Hl as <-|].
    apply (IH _ H m); [lia|done].
Qed.

Lemma find_from_complete i t (es : list Entry) n e :
  es !! n = Some e -> thread e = t ->
  (forall m e', (m < n)%nat -> es !! m = Some e' -> thread e' <> t) ->
  find_from i t es = Some ((i + n)%nat, e).
Proof.
  revert i n; induction es as [|x es IH]; intros i n; [done|].
  destruct n as [|n]; simpl.
  - intros [= ->] -> _. by rewrite Z.eqb_refl, Nat.add_0_r.
  - intros Hn Ht Hfirst.
    destruct (Z.eqb_spec (thread x) t) as [Heq|Hne].
    + by destruct (Hfirst 0%nat x ltac:(lia) eq_refl).
    + rewrite (IH (S i) n); [f_equal; f_equal; lia|done..|].
      intros m e' Hm Hl. apply (Hfirst (S m) e'); [lia|done].
Qed.

(** X1.  [FindEntry] returns the first entry of the table whose thread is
    [t], with its index, and [NULL] exactly when the table has no entry
    for [t]. *)
Theorem FindEntry_first_match t (es : list Entry) :
  (forall i e,
     FindEntry t es = Some (i, e) <->
     es !! i = Some e /\ thread e = t
     /\ forall j e', (j < i)%nat -> es !! j = Some e' -> thread e' <> t)
  /\ (FindEntry t es = None <-> forall e, e ∈ es -> thread e <> t).
Proof.
  split.
  - intros i e. split.
    + intros H. pose proof (find_from_Some _ _ _ _ _ H) as (_ & Hl & Ht).
      rewrite Nat.sub_0_r in Hl. split; [done|]. split; [done|].
      intros j e' Hj. apply (find_from_first _ _ _ _ _ H). lia.
    + intros (Hl & Ht & Hfirst). unfold FindEntry.
      by rewrite (find_from_complete 0 t es i e).
  - unfold FindEntry. rewrite find_from_None. apply Forall_forall.
Qed.

(** Writing an entry over one for the same thread, or appending one,
    changes no lookup of another thread. *)
Lemma find_from_insert_other k t' (es : list Entry) i e e' :
  es !! i = Some e -> thread e' = thread e -> thread e <> t' ->
  find_from k t' (<[i := e']> es) = find_from k t' es.
Proof.
  revert k i; induction es as [|x es IH]; intros k i; [done|].
  destruct i as [|i]; simpl.
  - intros [= ->] -> Hne.
    by destruct (Z.eqb_spec (thread e) t').
  - intros Hi He Hne. destruct (thread x =? t'); [done|]. by eapply IH.
Qed.

Lemma find_from_app_other k t' (es : list Entry) e :
  thread e <> t' -> find_from k t' (es ++ [e]) = find_from k t' es.
Proof.
  intros Hne. revert k; induction es as [|x es IH]; intros k; simpl.
  - by destruct (Z.eqb_spec (thread e) t').
  - destruct (thread x =? t'); [done|]. apply IH.
Qed.

(** ** More on attach *)

Lemma marker_ok_spec cur saved :
  marker_ok cur saved <->
  (saved =? cur) || ((cur =? 0) || (cur >? saved)) = true.
Proof.
  unfold marker_ok.
  destruct (Z.eqb_spec saved cur), (Z.eqb_spec cur 0), (Z.gtb_spec cur saved);
    simpl; split; try done; try lia; by auto.
Qed.

Lemma RestoreStateTo_quiet heap junk t r :
  in_rendezvous_ r = false ->
  RestoreStateTo heap junk t r = RestoreStateTo_after_wait heap junk t r.
Proof.
  intros Hq. unfold RestoreStateTo, mbind, M_bind, wait_while.
  by rewrite Hq.
Qed.

(** Lines 52-78, case by case. *)
Lemma RestoreStateTo_after_wait_eq heap junk t r :
  RestoreStateTo_after_wait heap junk t r =
    match FindEntry t (entries_ r) with
    | Some (i, e) =>
        let cur := thread_top_exit_frame_info (heap t) in
        let saved := top_exit_frame_info (state e) in
        if (saved =? cur) || ((cur =? 0) || (cur >? saved)) then
          if scheduled e then Aborted (AssertFailed 61)
          else Returned (Some (state e))
                 (set_entries
                    (<[i := {| thread := t; scheduled := true;
                               state := if DEBUG then zapped else state e |}]>
                       (entries_ r)) r)
        else Aborted (AssertFailed 58)
    | None =>
        Returned None
          (set_entries
             (entries_ r ++
                [ {| thread := t; scheduled := true;
                     state := if DEBUG then zapped else junk |} ]) r)
    end.
Proof.
  run. destruct (FindEntry t (entries_ r)) as [[i e]|] eqn:Hfind; simpl;
    [|done].
  apply FindEntry_Some in Hfind as [_ ->].
  destruct (_ =? _); simpl.
  - by destruct (scheduled e).
  - destruct (_ || _); simpl; [|done]. by destruct (scheduled e).
Qed.

(** X2.  Attaching a thread that is already attached is fatal: when
    [RestoreStateTo] finds a scheduled entry for [t] it never returns
    normally.  Outside a rendezvous, and on waking from one, it dies in
    the [ASSERT] of line 61 if the check of lines 57-60 passes and in the
    [ASSERT] of line 58 otherwise. *)
Theorem RestoreStateTo_double_attach heap junk t r i e :
  FindEntry t (entries_ r) = Some (i, e) ->
  scheduled e = true ->
  let cur := thread_top_exit_frame_info (heap t) in
  let saved := top_exit_frame_info (state e) in
  let line := if (saved =? cur) || ((cur =? 0) || (cur >? saved))
              then 61 else 58 in
  ~ returns_normally (RestoreStateTo heap junk t r)
  /\ (in_rendezvous_ r = false ->
      RestoreStateTo heap junk t r = Aborted (AssertFailed line))
  /\ (forall r0, in_rendezvous_ r0 = true -> in_rendezvous_ r = false ->
        resume (RestoreStateTo heap junk t r0) r
        = Aborted (AssertFailed line)).
Proof.
  intros Hfind He cur saved line.
  assert (Hq : in_rendezvous_ r = false ->
               RestoreStateTo heap junk t r = Aborted (AssertFailed line)).
  { intros Hq. rewrite RestoreStateTo_quiet by done.
    rewrite RestoreStateTo_after_wait_eq, Hfind. simpl. fold cur saved.
    unfold line. destruct (_ || _); [by rewrite He|done]. }
  split; [|split; [done|]].
  - intros (a & r1 & Hret). destruct (in_rendezvous_ r) eqn:Hin.
    + revert Hret. unfold RestoreStateTo, mbind, M_bind, wait_while.
      by rewrite Hin.
    + by rewrite Hq in Hret.
  - intros r0 H0 Hin. rewrite RestoreStateTo_woken by done. by apply Hq.
Qed.

(** X3.  When attach succeeds.  Outside a rendezvous [RestoreStateTo]
    returns normally exactly when the table has no entry for [t], or the
    entry is not scheduled and passes the check of lines 57-60.  When it
    returns, it returns the state the entry held, or [false] if there was
    none; the thread then has a scheduled entry, and the table has grown
    by one entry in the second case and not at all in the first. *)
Theorem RestoreStateTo_returns_iff heap junk t r :
  in_rendezvous_ r = false ->
  (returns_normally (RestoreStateTo heap junk t r) <->
   FindEntry t (entries_ r) = None
   \/ exists i e,
        FindEntry t (entries_ r) = Some (i, e) /\ scheduled e = false
        /\ marker_ok (thread_top_exit_frame_info (heap t))
             (top_exit_frame_info (state e)))
  /\ forall res r',
       RestoreStateTo heap junk t r = Returned res r' ->
       res = (fun found => state found.2) <$> FindEntry t (entries_ r)
       /\ (exists i e', FindEntry t (entries_ r') = Some (i, e')
                        /\ scheduled e' = true)
       /\ length (entries_ r') =
            (length (entries_ r)
             + match res with Some _ => 0 | None => 1 end)%nat.
Proof.
  intros Hq. rewrite RestoreStateTo_quiet by done.
  rewrite RestoreStateTo_after_wait_eq.
  destruct (FindEntry t (entries_ r)) as [[i e]|] eqn:Hfind; simpl.
  - pose proof (marker_ok_spec (thread_top_exit_frame_info (heap t))
                  (top_exit_frame_info (state e))) as Hm.
    destruct (_ || _).
    + destruct (scheduled e) eqn:He.
      * split; [|done]. split; [by intros (? & ? & ?)|].
        intros [?|(i' & e' & [= <- <-] & He' & _)]; congruence.
      * split.
        { split; [|by eexists _, _]. intros _. right. exists i, e.
          split; [done|]. split; [done|]. by apply Hm. }
        intros res r' [= <- <-]. split; [done|]. split.
        -- eexists _, _. split; [by eapply FindEntry_insert_same|done].
        -- simpl. rewrite length_insert. lia.
    + split; [|done]. split; [by intros (? & ? & ?)|].
      intros [?|(i' & e' & [= <- <-] & _ & Hok)]; [done|].
      apply Hm in Hok. done.
  - split; [split; [by left | by eexists _, _]|].
    intros res r' [= <- <-]. split; [done|]. split.
    + eexists _, _. split; [by apply FindEntry_app_new|done].
    + simpl. by rewrite length_app.
Qed.

(** The pattern [memset] writes: every byte of the word is [b]. *)
Lemma byte_high_bits b p :
  0 <= b < 256 -> 8 <= p -> Z.testbit b p = false.
Proof.
  intros Hb Hp. destruct (decide (b = 0)) as [->|Hnz].
  - apply Z.bits_0.
  - apply Z.bits_above_log2; [lia|].
    assert (Z.log2 b < 8); [|lia].
    apply Z.log2_lt_pow2; lia.
Qed.

Lemma fill_bytes_testbit n b i m :
  0 <= b < 256 -> (i < n)%nat -> 0 <= m < 8 ->
  Z.testbit (fill_bytes n b) (8 * Z.of_nat i + m) = Z.testbit b m.
Proof.
  intros Hb. revert i; induction n as [|n IH]; intros i Hi Hm; [lia|].
  simpl. rewrite Z.lor_spec. destruct i as [|i].
  - rewrite Z.shiftl_spec_low by lia. simpl. done.
  - rewrite Z.shiftl_spec by lia.
    replace (8 * Z.of_nat (S i) + m - 8) with (8 * Z.of_nat i + m) by lia.
    rewrite IH by (done || lia).
    rewrite (byte_high_bits b (8 * Z.of_nat (S i) + m)) by lia.
    apply orb_false_r.
Qed.

Lemma fill_bytes_byte n b i :
  0 <= b < 256 -> (i < n)%nat ->
  Z.land (Z.shiftr (fill_bytes n b) (8 * Z.of_nat i)) 255 = b.
Proof.
  intros Hb Hi. apply Z.bits_inj'. intros m Hm.
  rewrite Z.land_spec, Z.shiftr_spec by done.
  change 255 with (Z.ones 8).
  destruct (Z.lt_ge_cases m 8) as [Hlt|Hge].
  - rewrite Z.ones_spec_low by lia.
    replace (m + 8 * Z.of_nat i) with (8 * Z.of_nat i + m) by lia.
    rewrite fill_bytes_testbit by (done || lia). apply andb_true_r.
  - rewrite Z.ones_spec_high by lia.
    rewrite (byte_high_bits b m) by (done || lia). apply andb_false_r.
Qed.

(** X4.  Re-attach reuses the entry.  When [RestoreStateTo] finds an
    unscheduled entry for [t] that passes the check of lines 57-60, it
    returns the saved state and marks that entry scheduled, in place: the
    table keeps its length and every other entry.  Without [DEBUG] the
    entry keeps the saved state; with [DEBUG] every byte of its [zone] and
    [top_exit_frame_info] is [0xda] afterwards, while the state returned
    is the one that was saved. *)
Theorem RestoreStateTo_reattach heap junk t r i e :
  FindEntry t (entries_ r) = Some (i, e) ->
  scheduled e = false ->
  marker_ok (thread_top_exit_frame_info (heap t))
    (top_exit_frame_info (state e)) ->
  in_rendezvous_ r = false ->
  exists r' e',
    RestoreStateTo heap junk t r = Returned (Some (state e)) r'
    /\ length (entries_ r') = length (entries_ r)
    /\ (forall j, j <> i -> entries_ r' !! j = entries_ r !! j)
    /\ entries_ r' !! i = Some e'
    /\ thread e' = t /\ scheduled e' = true
    /\ (DEBUG = false -> state e' = state e)
    /\ (DEBUG = true ->
        forall k, (k < kWordSize)%nat ->
          Z.land (Z.shiftr (zone (state e')) (8 * Z.of_nat k)) 255 = 0xda
          /\ Z.land (Z.shiftr (top_exit_frame_info (state e'))
                       (8 * Z.of_nat k)) 255 = 0xda).
Proof.
  intros Hfind He Hok Hq.
  pose proof (FindEntry_Some _ _ _ _ Hfind) as [Hi Ht].
  eexists _, _. split.
  { rewrite RestoreStateTo_quiet by done.
    rewrite RestoreStateTo_after_wait_eq, Hfind. simpl.
    apply marker_ok_spec in Hok. rewrite Hok, He. reflexivity. }
  simpl. split; [apply length_insert|].
  split; [intros j Hj; by apply list_lookup_insert_ne|].
  split; [apply list_lookup_insert_eq; by eapply lookup_lt_Some|].
  split; [done|]. split; [done|]. split.
  - by intros ->.
  - intros -> k Hk. simpl. split; by apply fill_bytes_byte.
Qed.

(** ** Attach during a rendezvous *)

(** X5.  A thread that enters the isolate during a rendezvous waits in
    [RestoreStateTo]: called while [in_rendezvous_] is set, the method
    parks without touching the registry, parks again each time it is woken
    in a state where the flag is still set, whatever else has changed, and
    when it is woken with the flag clear does what a call made at that
    moment does. *)
Theorem RestoreStateTo_waits heap junk t r (wakes : list Registry) :
  in_rendezvous_ r = true ->
  Forall (fun r' => in_rendezvous_ r' = true) wakes ->
  exists k,
    fold_left resume wakes (RestoreStateTo heap junk t r)
    = Parked (default r (last wakes)) in_rendezvous_ k
    /\ forall r', in_rendezvous_ r' = false ->
         resume (fold_left resume wakes (RestoreStateTo heap junk t r)) r'
         = RestoreStateTo heap junk t r'.
Proof.
  intros Hq Hwakes.
  assert (Hpark : exists k,
    RestoreStateTo heap junk t r = Parked r in_rendezvous_ k
    /\ forall r', k r' = RestoreStateTo_after_wait heap junk t r').
  { unfold RestoreStateTo, mbind, M_bind, wait_while. rewrite Hq. simpl.
    by eexists. }
  destruct Hpark as (k & -> & Hk). exists k.
  revert r Hq. induction Hwakes as [|w wakes Hw _ IH]; intros r Hq.
  - simpl. split; [done|]. intros r' Hq'. rewrite Hq', Hk.
    by rewrite RestoreStateTo_quiet.
  - simpl fold_left. rewrite Hw. destruct (IH w Hw) as [Hlast Hthen].
    split; [|done]. rewrite Hlast. f_equal.
    rewrite last_cons. by destruct (last wakes).
Qed.

(** ** What attach and detach leave alone *)

Lemma extends_same r r' :
  thread <$> entries_ r' = thread <$> entries_ r -> extends r r'.
Proof. intros H. exists []. rewrite H, app_nil_r. split; [done|simpl; lia]. Qed.

Lemma threads_insert (es : list Entry) i e e' :
  es !! i = Some e -> thread e' = thread e ->
  thread <$> <[i := e']> es = thread <$> es.
Proof.
  intros Hi He. rewrite list_fmap_insert, He, list_insert_id; [done|].
  by rewrite list_lookup_fmap, Hi.
Qed.

Lemma RestoreStateTo_after_wait_extends heap junk t r :
  keeps extends r (RestoreStateTo_after_wait heap junk t r).
Proof.
  rewrite RestoreStateTo_after_wait_eq.
  destruct (FindEntry t (entries_ r)) as [[i e]|] eqn:Hfind; simpl.
  - apply FindEntry_Some in Hfind as [Hi Ht].
    destruct (_ || _); [|done]. destruct (scheduled e); [done|]. simpl.
    apply extends_same. simpl. by eapply threads_insert.
  - exists [t]. simpl. rewrite fmap_app. split; [done|simpl; lia].
Qed.

Lemma SaveStateFrom_after_checkin_extends t st r :
  keeps extends r (SaveStateFrom_after_checkin t st r).
Proof.
  destruct (FindEntry t (entries_ r)) as [[i e]|] eqn:Hfind.
  - rewrite (SaveStateFrom_after_checkin_found _ _ _ _ _ Hfind).
    apply FindEntry_Some in Hfind as [Hi Ht].
    destruct (scheduled e); [|done]. simpl.
    apply extends_same. simpl. by eapply threads_insert.
  - by rewrite SaveStateFrom_after_checkin_missing.
Qed.

(** X6.  Entries are never removed or moved.  Each time one of
    [RestoreStateTo], [SaveStateFrom], [Contains], [CheckNotScheduled] and
    [VisitObjectPointers] holds the monitor, the table it leaves has the
    same threads at the same indices as the table it found, with at most
    one more entry at the end. *)
Theorem table_append_only r :
  (forall heap junk t, keeps extends r (RestoreStateTo heap junk t r))
  /\ (forall t st, keeps extends r (SaveStateFrom t st r))
  /\ (forall t, keeps extends r (Contains t r))
  /\ (forall heap isolate, keeps extends r (CheckNotScheduled heap isolate r))
  /\ (forall heap visitor,
        keeps extends r (VisitObjectPointers heap visitor r)).
Proof.
  split_and!.
  - intros heap junk t. unfold RestoreStateTo, mbind, M_bind, wait_while.
    destruct (in_rendezvous_ r); simpl.
    + split; [by apply extends_same|]. intros r2.
      apply RestoreStateTo_after_wait_extends.
    + apply RestoreStateTo_after_wait_extends.
  - intros t st. destruct (in_rendezvous_ r) eqn:Hq.
    + destruct (SaveStateFrom_parks t st r Hq) as (k & -> & Hk). simpl.
      split; [by apply extends_same|]. intros r2. rewrite Hk.
      apply SaveStateFrom_after_checkin_extends.
    + rewrite SaveStateFrom_quiet by done.
      apply SaveStateFrom_after_checkin_extends.
  - intros t. rewrite Contains_spec. by apply extends_same.
  - intros heap isolate.
    change (CheckNotScheduled heap isolate r)
      with (check_not_scheduled_loop heap isolate (entries_ r) r).
    rewrite check_not_scheduled_loop_spec.
    destruct (list_find _ _) as [[? ?]|]; [done|]. by apply extends_same.
  - intros heap visitor. rewrite VisitObjectPointers_eq. by apply extends_same.
Qed.

Lemma RestoreStateTo_after_wait_frame heap junk t t' r :
  t <> t' ->
  keeps (fun r r' => FindEntry t' (entries_ r') = FindEntry t' (entries_ r))
    r (RestoreStateTo_after_wait heap junk t r).
Proof.
  intros Hne. rewrite RestoreStateTo_after_wait_eq.
  destruct (FindEntry t (entries_ r)) as [[i e]|] eqn:Hfind; simpl.
  - apply FindEntry_Some in Hfind as [Hi Ht].
    destruct (_ || _); [|done]. destruct (scheduled e); [done|]. simpl.
    eapply find_from_insert_other; [done|simpl; done|by rewrite Ht].
  - by apply find_from_app_other.
Qed.

Lemma SaveStateFrom_after_checkin_frame t st t' r :
  t <> t' ->
  keeps (fun r r' => FindEntry t' (entries_ r') = FindEntry t' (entries_ r))
    r (SaveStateFrom_after_checkin t st r).
Proof.
  intros Hne.
  destruct (FindEntry t (entries_ r)) as [[i e]|] eqn:Hfind.
  - rewrite (SaveStateFrom_after_checkin_found _ _ _ _ _ Hfind).
    apply FindEntry_Some in Hfind as [Hi Ht].
    destruct (scheduled e); [|done]. simpl.
    eapply find_from_insert_other; [done|simpl; done|by rewrite Ht].
  - by rewrite SaveStateFrom_after_checkin_missing.
Qed.

(** X7.  A thread's attach and detach never touch another thread's
    entry.  Each time [RestoreStateTo] or [SaveStateFrom], called for [t],
    holds the monitor, [FindEntry] returns for every other thread the
    index and the entry, scheduled flag and saved state included, that it
    returned before. *)
Theorem other_entries_untouched t t' r :
  t <> t' ->
  let untouched (r r' : Registry) :=
    FindEntry t' (entries_ r') = FindEntry t' (entries_ r) in
  (forall heap junk, keeps untouched r (RestoreStateTo heap junk t r))
  /\ (forall st, keeps untouched r (SaveStateFrom t st r)).
Proof.
  intros Hne untouched. split.
  - intros heap junk. unfold RestoreStateTo, mbind, M_bind, wait_while.
    destruct (in_rendezvous_ r); simpl.
    + split; [done|]. intros r2. by apply RestoreStateTo_after_wait_frame.
    + by apply RestoreStateTo_after_wait_frame.
  - intros st. destruct (in_rendezvous_ r) eqn:Hq.
    + destruct (SaveStateFrom_parks t st r Hq) as (k & -> & Hk). simpl.
      split; [done|]. intros r2. rewrite Hk.
      by apply SaveStateFrom_after_checkin_frame.
    + rewrite SaveStateFrom_quiet by done.
      by apply SaveStateFrom_after_checkin_frame.
Qed.

(** ** What root visitation reads *)

Lemma same_zone_zone_of heap heap' (es es' : list Entry) :
  Forall2 (same_zone heap heap') es es' ->
  zone_of heap <$> es = zone_of heap' <$> es'.
Proof.
  induction 1 as [|e e' es es' [Hs Hz] _ IH]; [done|].
  rewrite !fmap_cons, IH. f_equal. unfold zone_of. rewrite <- Hs.
  by destruct (scheduled e).
Qed.

(** X8.  [VisitObjectPointers] reads the scheduled flag of each entry
    and then only the live zone of a scheduled entry's thread or the saved
    zone of an unscheduled entry: two tables whose entries agree on these
    get the same visits in the same order, whatever the saved states of
    their scheduled entries and the threads of their unscheduled ones.  No
    visit is made on [NULL], and what the visitor had seen stays in
    front. *)
Theorem VisitObjectPointers_reads heap heap' visitor r r' :
  Forall2 (same_zone heap heap') (entries_ r) (entries_ r') ->
  exists seen,
    VisitObjectPointers heap visitor r = Returned (visitor ++ seen) r
    /\ VisitObjectPointers heap' visitor r' = Returned (visitor ++ seen) r'
    /\ NULL ∉ seen.
Proof.
  intros Hsame. rewrite !VisitObjectPointers_eq.
  rewrite (same_zone_zone_of _ _ _ _ Hsame).
  eexists. split; [done|]. split; [done|].
  intros Hin. by apply list_elem_of_filter in Hin as [Hnz _].
Qed.

(** ** Sequences of attach and detach calls *)

Lemma scheduled_threads_FindEntry r t :
  unique_threads r ->
  t ∈ scheduled_threads r <->
  exists i e, FindEntry t (entries_ r) = Some (i, e) /\ scheduled e = true.
Proof.
  intros Hu. unfold scheduled_threads. split.
  - intros Hin. apply list_elem_of_fmap in Hin as (e & -> & He).
    apply list_elem_of_filter in He as [Hs He].
    apply list_elem_of_lookup in He as [j Hj].
    assert (Hsome : is_Some (FindEntry (thread e) (entries_ r))).
    { apply (find_from_elem 0). apply list_elem_of_fmap_2.
      by eapply list_elem_of_lookup_2. }
    destruct Hsome as [[i e0] Hfind]. exists i, e0. split; [done|].
    pose proof (FindEntry_Some _ _ _ _ Hfind) as [Hi Ht].
    assert (i = j) as ->.
    { eapply (NoDup_lookup _ _ _ (thread e) Hu);
        rewrite list_lookup_fmap; [by rewrite Hi; simpl; f_equal|].
      by rewrite Hj. }
    congruence.
  - intros (i & e & Hfind & He).
    apply FindEntry_Some in Hfind as [Hi <-].
    apply list_elem_of_fmap_2, list_elem_of_filter. split; [done|].
    by eapply list_elem_of_lookup_2.
Qed.

Lemma attach_effect heap junk t r res r' :
  in_rendezvous_ r = false -> unique_threads r ->
  RestoreStateTo heap junk t r = Returned res r' ->
  in_rendezvous_ r' = false /\ unique_threads r'
  /\ (t ∉ scheduled_threads r)
  /\ (forall x, x ∈ scheduled_threads r' <-> x = t \/ x ∈ scheduled_threads r)
  /\ thread <$> entries_ r' =
       if decide (t ∈ thread <$> entries_ r) then thread <$> entries_ r
       else (thread <$> entries_ r) ++ [t].
Proof.
  intros Hq Hu Hret. rewrite RestoreStateTo_quiet in Hret by done.
  pose proof (RestoreStateTo_after_wait_unique heap junk t r Hu) as Hu'.
  pose proof (RestoreStateTo_after_wait_frame heap junk t) as Hframe.
  rewrite Hret in Hu'. simpl in Hu'.
  assert (Hothers : forall x, t <> x ->
            FindEntry x (entries_ r') = FindEntry x (entries_ r)).
  { intros x Hx. specialize (Hframe x r Hx). by rewrite Hret in Hframe. }
  rewrite RestoreStateTo_after_wait_eq in Hret.
  assert (Hin : t ∈ thread <$> entries_ r <->
                is_Some (FindEntry t (entries_ r)))
    by (symmetry; apply (find_from_elem 0)).
  assert (Hmine : (exists i e, FindEntry t (entries_ r') = Some (i, e)
                               /\ scheduled e = true)
                  /\ ~ (exists i e, FindEntry t (entries_ r) = Some (i, e)
                                     /\ scheduled e = true)
                  /\ in_rendezvous_ r' = false
                  /\ thread <$> entries_ r' =
                       if decide (t ∈ thread <$> entries_ r)
                       then thread <$> entries_ r
                       else (thread <$> entries_ r) ++ [t]).
  { destruct (FindEntry t (entries_ r)) as [[i e]|] eqn:Hfind; simpl in Hret.
    - pose proof (FindEntry_Some _ _ _ _ Hfind) as [Hi Ht].
      destruct (_ || _); [|done]. destruct (scheduled e) eqn:He; [done|].
      injection Hret as <- <-. split_and!.
      + eexists _, _. split; [by eapply FindEntry_insert_same|done].
      + intros (i' & e' & [= <- <-] & He'). congruence.
      + done.
      + rewrite decide_True by (apply Hin; by eauto). simpl.
        by eapply threads_insert.
    - injection Hret as <- <-. split_and!.
      + eexists _, _. split; [by apply FindEntry_app_new|done].
      + by intros (i' & e' & ? & _).
      + done.
      + rewrite decide_False by (rewrite Hin; by intros []).
        simpl. by rewrite fmap_app. }
  destruct Hmine as (Hnew & Hold & Hq' & Hthreads).
  split_and!; try done.
  - by rewrite scheduled_threads_FindEntry.
  - intros x. rewrite !scheduled_threads_FindEntry by done.
    destruct (decide (t = x)) as [<-|Hx]; [by split; auto|].
    rewrite (Hothers x Hx). split; [by right|]. by intros [->|].
Qed.

Lemma detach_effect t st r r' :
  in_rendezvous_ r = false -> unique_threads r ->
  SaveStateFrom t st r = Returned tt r' ->
  in_rendezvous_ r' = false /\ unique_threads r'
  /\ (t ∈ scheduled_threads r)
  /\ (forall x, x ∈ scheduled_threads r' <-> x ∈ scheduled_threads r /\ x <> t)
  /\ thread <$> entries_ r' = thread <$> entries_ r.
Proof.
  intros Hq Hu Hret. rewrite SaveStateFrom_quiet in Hret by done.
  pose proof (SaveStateFrom_after_checkin_unique t st r Hu) as Hu'.
  pose proof (SaveStateFrom_after_checkin_frame t st) as Hframe.
  rewrite Hret in Hu'. simpl in Hu'.
  assert (Hothers : forall x, t <> x ->
            FindEntry x (entries_ r') = FindEntry x (entries_ r)).
  { intros x Hx. specialize (Hframe x r Hx). by rewrite Hret in Hframe. }
  destruct (FindEntry t (entries_ r)) as [[i e]|] eqn:Hfind;
    [|by rewrite SaveStateFrom_after_checkin_missing in Hret].
  rewrite (SaveStateFrom_after_checkin_found _ _ _ _ _ Hfind) in Hret.
  pose proof (FindEntry_Some _ _ _ _ Hfind) as [Hi Ht].
  destruct (scheduled e) eqn:He; [|done]. injection Hret as <-.
  split_and!; try done.
  - apply scheduled_threads_FindEntry; [done|]. by eauto.
  - intros x. rewrite !scheduled_threads_FindEntry by done.
    destruct (decide (t = x)) as [<-|Hx].
    + simpl. erewrite FindEntry_insert_same by done. split.
      * by intros (i' & e' & [= <- <-] & ?).
      * by intros [_ ?].
    + rewrite (Hothers x Hx). split; [by auto|]. by intros [? _].
  - simpl. by eapply threads_insert.
Qed.

Lemma run_ops_effect ops r0 r now0 :
  in_rendezvous_ r0 = false -> unique_threads r0 ->
  (forall x, x ∈ scheduled_threads r0 <-> x ∈ now0) ->
  run_ops ops r0 = Returned tt r ->
  unique_threads r
  /\ (exists now,
        bracket now0 ops = Some now
        /\ forall x, x ∈ scheduled_threads r <-> x ∈ now)
  /\ thread <$> entries_ r = roster (thread <$> entries_ r0) ops.
Proof.
  revert r0 now0; induction ops as [|op ops IH]; intros r0 now0 Hq Hu Hnow.
  - intros [= <-]. split; [done|]. split; [by exists now0|done].
  - simpl. unfold mbind, M_bind.
    destruct op as [heap junk t|t st]; simpl.
    + unfold mbind, M_bind.
      destruct (RestoreStateTo heap junk t r0) as [res r1| | |] eqn:Hop;
        simpl; try done.
      destruct (attach_effect _ _ _ _ _ _ Hq Hu Hop)
        as (Hq1 & Hu1 & Hout & Hsched & Hthreads).
      intros Hrun. rewrite decide_False by (by rewrite <- Hnow).
      rewrite <- Hthreads. apply (IH r1); try done.
      intros x. rewrite Hsched, elem_of_cons, Hnow. done.
    + destruct (SaveStateFrom t st r0) as [[] r1| | |] eqn:Hop;
        simpl; try done.
      destruct (detach_effect _ _ _ _ Hq Hu Hop)
        as (Hq1 & Hu1 & Hin & Hsched & Hthreads).
      intros Hrun. rewrite decide_True by (by rewrite <- Hnow).
      rewrite <- Hthreads. apply (IH r1); try done.
      intros x. rewrite Hsched, list_elem_of_filter, Hnow. tauto.
Qed.

Lemma CheckNotScheduled_returns_iff heap isolate r :
  CheckNotScheduled heap isolate r = Returned tt r <->
  scheduled_threads r = [].
Proof.
  change (CheckNotScheduled heap isolate r)
    with (check_not_scheduled_loop heap isolate (entries_ r) r).
  rewrite check_not_scheduled_loop_spec. unfold scheduled_threads.
  destruct (list_find _ (entries_ r)) as [[i e]|] eqn:Hfind.
  - apply list_find_Some in Hfind as (Hi & He & _).
    split; [done|]. intros Hnil.
    assert (thread e ∈ thread <$>
              filter (fun e => scheduled e = true) (entries_ r)) as Hin.
    { apply list_elem_of_fmap_2, list_elem_of_filter. split; [done|].
      by eapply list_elem_of_lookup_2. }
    rewrite Hnil in Hin. by apply elem_of_nil in Hin.
  - apply list_find_None in Hfind. split; [|done]. intros _.
    induction Hfind as [|e es He _ IH]; [done|].
    rewrite filter_cons, decide_False by done. apply IH.
Qed.

(** X9.  Attach and detach alternate.  If a sequence of attach and
    detach calls on a new registry returns, then no call in it attaches a
    thread that is inside the isolate or detaches one that is not (such a
    call dies in an [ASSERT]), and the threads that have a scheduled entry
    at the end are those whose last call was an attach. *)
Theorem run_ops_bracketed ops r :
  run_ops ops ThreadRegistry_new = Returned tt r ->
  exists now,
    bracket [] ops = Some now
    /\ forall t,
         (exists i e, FindEntry t (entries_ r) = Some (i, e)
                      /\ scheduled e = true)
         <-> t ∈ now.
Proof.
  intros Hrun.
  destruct (run_ops_effect ops ThreadRegistry_new r [] eq_refl
              NoDup_nil_2 (fun x => reflexivity _) Hrun)
    as (Hu & (now & Hb & Hnow) & _).
  exists now. split; [done|]. intros t.
  by rewrite <- Hnow, scheduled_threads_FindEntry.
Qed.

(** X10.  Teardown after a sequence of calls.  After a returning
    sequence of attach and detach calls on a new registry,
    [CheckNotScheduled] returns exactly when every thread that attached
    has detached again; otherwise it dies. *)
Theorem CheckNotScheduled_after_ops ops r heap isolate :
  run_ops ops ThreadRegistry_new = Returned tt r ->
  (CheckNotScheduled heap isolate r = Returned tt r
   <-> bracket [] ops = Some [])
  /\ (bracket [] ops <> Some [] ->
      exists f, CheckNotScheduled heap isolate r = Aborted f).
Proof.
  intros Hrun.
  destruct (run_ops_effect ops ThreadRegistry_new r [] eq_refl
              NoDup_nil_2 (fun x => reflexivity _) Hrun)
    as (Hu & (now & Hb & Hnow) & _).
  assert (Hiff : CheckNotScheduled heap isolate r = Returned tt r
                 <-> bracket [] ops = Some []).
  { rewrite CheckNotScheduled_returns_iff, Hb. split.
    - intros Hnil. f_equal. destruct now as [|x now]; [done|].
      assert (x ∈ scheduled_threads r) as Hin by (apply Hnow; by left).
      rewrite Hnil in Hin. by apply elem_of_nil in Hin.
    - intros [= ->]. destruct (scheduled_threads r) as [|x l]; [done|].
      assert (x ∈ []) as Hin by (apply Hnow; by left).
      by apply elem_of_nil in Hin. }
  split; [done|]. intros Hne.
  change (CheckNotScheduled heap isolate r)
    with (check_not_scheduled_loop heap isolate (entries_ r) r) in *.
  rewrite check_not_scheduled_loop_spec in *.
  destruct (list_find _ _) as [[? ?]|]; [by eauto|].
  destruct Hne. by apply Hiff.
Qed.

(** X11.  One entry per thread, in the order of first attach.  After a
    returning sequence of attach and detach calls on a new registry the
    table holds exactly one entry for each thread the sequence attached,
    however often it re-attached, and the entries stand in the order in
    which the threads first attached. *)
Theorem run_ops_roster ops r :
  run_ops ops ThreadRegistry_new = Returned tt r ->
  thread <$> entries_ r = roster [] ops
  /\ NoDup (thread <$> entries_ r)
  /\ forall t, t ∈ thread <$> entries_ r <-> t ∈ attached ops.
Proof.
  intros Hrun.
  destruct (run_ops_effect ops ThreadRegistry_new r [] eq_refl
              NoDup_nil_2 (fun x => reflexivity _) Hrun)
    as (Hu & _ & Hroster).
  split; [done|]. split; [done|].
  pose proof (run_ops_quiescent ops ThreadRegistry_new eq_refl) as Hq.
  rewrite Hrun in Hq. destruct Hq as [_ Hin]. intros t.
  rewrite Hin. simpl. rewrite elem_of_nil. tauto.
Qed.

(** ** The saved state while other threads come and go *)

Lemma run_op_frame t op r r1 :
  in_rendezvous_ r = false -> op_thread op <> t ->
  run_op op r = Returned tt r1 ->
  FindEntry t (entries_ r1) = FindEntry t (entries_ r)
  /\ in_rendezvous_ r1 = false.
Proof.
  intros Hq Hne Hrun.
  pose proof (run_op_quiescent op r Hq) as Hquiet.
  rewrite Hrun in Hquiet. destruct Hquiet as [Hq1 _]. split; [|done].
  destruct op as [heap junk t'|t' st]; simpl in *.
  - unfold mbind, M_bind in Hrun. rewrite RestoreStateTo_quiet in Hrun by done.
    pose proof (RestoreStateTo_after_wait_frame heap junk t' t r Hne) as Hf.
    destruct (RestoreStateTo_after_wait heap junk t' r); simpl in *; try done.
    by injection Hrun as <-.
  - rewrite SaveStateFrom_quiet in Hrun by done.
    pose proof (SaveStateFrom_after_checkin_frame t' st t r Hne) as Hf.
    by rewrite Hrun in Hf.
Qed.

Lemma run_ops_frame t ops r r2 :
  in_rendezvous_ r = false -> Forall (fun op => op_thread op <> t) ops ->
  run_ops ops r = Returned tt r2 ->
  FindEntry t (entries_ r2) = FindEntry t (entries_ r)
  /\ in_rendezvous_ r2 = false.
Proof.
  intros Hq Hops. revert r Hq.
  induction Hops as [|op ops Hop _ IH]; intros r Hq; simpl.
  - by intros [= <-].
  - unfold mbind, M_bind.
    destruct (run_op op r) as [[] r1| | |] eqn:Hrun; simpl; try done.
    destruct (run_op_frame t op r r1 Hq Hop Hrun) as [Hf Hq1].
    intros Hrest. destruct (IH r1 Hq1 Hrest) as [Hf2 Hq2].
    split; [congruence|done].
Qed.

(** X12.  The saved state waits for its thread.  While a thread is
    detached, the attach and detach calls of other threads, however many
    and in whatever order, leave its entry where it is and as it is: if
    they return, the thread's next [RestoreStateTo] gets back exactly the
    state its [SaveStateFrom] stored, provided its
    [top_exit_frame_info] passes the check of lines 57-60. *)
Theorem saved_state_survives heap junk t st r i e ops r2 :
  in_rendezvous_ r = false ->
  FindEntry t (entries_ r) = Some (i, e) -> scheduled e = true ->
  Forall (fun op => op_thread op <> t) ops ->
  run_ops (Detach t st :: ops) r = Returned tt r2 ->
  marker_ok (thread_top_exit_frame_info (heap t)) (top_exit_frame_info st) ->
  FindEntry t (entries_ r2)
    = Some (i, {| thread := t; scheduled := false; state := st |})
  /\ exists r3, RestoreStateTo heap junk t r2 = Returned (Some st) r3.
Proof.
  intros Hq Hfind He Hops Hrun Hok. simpl in Hrun.
  unfold mbind, M_bind in Hrun. rewrite SaveStateFrom_quiet in Hrun by done.
  rewrite (SaveStateFrom_after_checkin_found _ _ _ _ _ Hfind), He in Hrun.
  simpl in Hrun.
  pose proof (FindEntry_Some _ _ _ _ Hfind) as [Hi Ht].
  eapply run_ops_frame in Hrun as [Hf Hq2]; [|done|done].
  simpl in Hf.
  erewrite FindEntry_insert_same in Hf by done.
  split; [done|].
  rewrite RestoreStateTo_quiet by done.
  rewrite RestoreStateTo_after_wait_eq, Hf. simpl.
  apply marker_ok_spec in Hok. rewrite Hok. by eexists.
Qed.

(** ** The saved state of a scheduled entry is dead *)

Lemma alike_refl r : alike r r.
Proof.
  split; [|done]. apply Forall2_same_length_lookup. split; [done|].
  intros i e e' He [= <-]%(eq_trans (eq_sym He)). done.
Qed.










End Registry.

(** ** Two builds side by side *)

Section Builds.

Context {Other : Type}.
Variables DEBUG DEBUG' : bool.
Variables kWordSize kWordSize' : nat.
Variables zapped_other zapped_other' : Other.



End Builds.

(** ** The properties at sample inputs *)

Lemma RestoreStateTo_first_attach_witness :
  FindEntry 7 (entries_ (ThreadRegistry_new (Other := unit))) = None
  /\ RestoreStateTo false 8 tt (sample_heap 0) sample_junk 7 ThreadRegistry_new
     = Returned None sample_attached.
Proof.
  split; [reflexivity|].
  destruct (RestoreStateTo_first_attach false 8 tt (sample_heap 0) sample_junk
              7 ThreadRegistry_new eq_refl eq_refl) as [H _].
  exact H.
Defined.

(** Thread 9 has no entry; thread 7 has a scheduled one. *)
Lemma SaveStateFrom_contract_witness :
  (exists f, SaveStateFrom 9 sample_state sample_attached = Aborted f)
  /\ SaveStateFrom 7 sample_state sample_attached = Returned tt sample_detached.
Proof.
  destruct (SaveStateFrom_contract 7 sample_state sample_attached) as [_ Hok].
  destruct (SaveStateFrom_contract 9 sample_state sample_attached) as [Hbad _].
  split.
  - destruct Hbad as (_ & Hf & _); [left; reflexivity|].
    apply Hf. reflexivity.
  - destruct (Hok 0%nat _ eq_refl eq_refl) as (Hret & _).
    apply Hret. reflexivity.
Defined.

(** Thread 7 detached with a state saved at 10 and comes back at 5. *)
Lemma RestoreStateTo_monotonicity_witness :
  RestoreStateTo false 8 tt (sample_heap 5) sample_junk 7 sample_detached
  = Aborted (AssertFailed 58).
Proof.
  destruct (RestoreStateTo_monotonicity false 8 tt (sample_heap 5) sample_junk
              7 sample_detached 0%nat _ eq_refl) as (_ & H & _);
    simpl; try lia.
  apply H. reflexivity.
Defined.

(** C1 as stated fails: thread 7, which has a scheduled entry, detaches
    with a state whose [top_exit_frame_info] is 10 and re-attaches when its
    own is 5; the detach returns, the attach dies in the [ASSERT] of line
    58. *)
Lemma detach_attach_roundtrip_fails :
  FindEntry 7 (entries_ sample_attached)
    = Some (0%nat, {| thread := 7; scheduled := true; state := sample_junk |})
  /\ SaveStateFrom 7 sample_state sample_attached = Returned tt sample_detached
  /\ RestoreStateTo false 8 tt (sample_heap 5) sample_junk 7 sample_detached
     = Aborted (AssertFailed 58)
  /\ ~ returns_normally
        (RestoreStateTo false 8 tt (sample_heap 5) sample_junk 7
           sample_detached).
Proof.
  split; [reflexivity|]. split; [reflexivity|]. split; [reflexivity|].
  intros (a & r & H). discriminate H.
Qed.

(** Thread 7 detaches with a state saved at 10 and re-attaches at 12. *)
Lemma detach_attach_roundtrip_witness :
  exists r2,
    SaveStateFrom 7 sample_state sample_attached = Returned tt sample_detached
    /\ RestoreStateTo false 8 tt (sample_heap 12) sample_junk 7 sample_detached
       = Returned (Some sample_state) r2
    /\ exists e2, FindEntry 7 (entries_ r2) = Some (0%nat, e2)
                  /\ scheduled e2 = true.
Proof.
  destruct (detach_attach_roundtrip false 8 tt (sample_heap 12) sample_junk 7
              sample_state sample_attached 0%nat _ eq_refl eq_refl)
    as (Hsave & _ & _ & Hattach).
  { right. right. simpl. lia. }
  destruct (Hattach sample_detached 0%nat eq_refl eq_refl)
    as (r2 & e2 & Hr2 & _ & Hfind & _ & Hsched).
  exists r2. split; [exact (Hsave eq_refl)|]. split; [exact Hr2|].
  exists e2. by split.
Defined.

Lemma unique_threads_invariant_witness :
  unique_threads (ThreadRegistry_new (Other := unit))
  /\ preserves unique_threads
       (RestoreStateTo false 8 tt (sample_heap 0) sample_junk 7
          ThreadRegistry_new).
Proof.
  destruct (unique_threads_invariant (Other := unit) false 8 tt) as [H0 H].
  split; [exact H0|].
  destruct (H _ H0) as (Hattach & _). apply Hattach.
Defined.

(** C3 as stated fails: thread 8 is scheduled and has no zone, so the
    table has one scheduled entry and the call makes no visit. *)
Lemma VisitObjectPointers_misses_null :
  let r := set_entries
             [ {| thread := 8; scheduled := true; state := sample_junk |} ]
             sample_attached in
  length (filter (fun e => scheduled e = true) (entries_ r)) = 1%nat
  /\ VisitObjectPointers (sample_heap 0) [] r = Returned [] r
  /\ VisitObjectPointers (sample_heap 0) [] r
     <> Returned ([] ++ (zone_of (sample_heap 0) <$> entries_ r)) r.
Proof.
  split; [reflexivity|]. split; [reflexivity|]. discriminate.
Qed.

(** One detached thread and one attached thread, each with a zone. *)
Lemma VisitObjectPointers_visits_witness :
  let r := set_entries
             [ {| thread := 6; scheduled := false; state := sample_state |};
               {| thread := 7; scheduled := true; state := sample_junk |} ]
             sample_attached in
  Forall (fun e => zone_of (sample_heap 0) e <> NULL) (entries_ r)
  /\ VisitObjectPointers (sample_heap 0) [] r = Returned [0x5000; 0x7000] r.
Proof.
  intros r.
  assert (Hall : Forall (fun e => zone_of (sample_heap 0) e <> NULL)
                   (entries_ r)).
  { repeat constructor; discriminate. }
  split; [exact Hall|].
  destruct (VisitObjectPointers_visits (sample_heap 0) [] r) as (_ & _ & H).
  destruct (H Hall) as [Hret _]. exact Hret.
Defined.

(** Thread 8, in the middle of the table, has no zone. *)
Lemma VisitObjectPointers_skips_null_witness :
  zone_of (sample_heap 0)
    {| thread := 8; scheduled := true; state := sample_junk |} = NULL
  /\ VisitObjectPointers (sample_heap 0) [] sample_three
     = Returned [0x5000; 0x7000] sample_three.
Proof.
  split; [reflexivity|].
  destruct (VisitObjectPointers_skips_null (sample_heap 0) [] sample_three
              [ {| thread := 6; scheduled := false; state := sample_state |} ]
              {| thread := 8; scheduled := true; state := sample_junk |}
              [ {| thread := 7; scheduled := true; state := sample_junk |} ]
              eq_refl eq_refl) as (seen & Hret & _ & Hseen).
  rewrite Hret, Hseen. reflexivity.
Defined.

(** Thread 7 is attached; isolate 99 is being torn down. *)
Lemma CheckNotScheduled_spec_witness :
  CheckNotScheduled (sample_heap 0) 99 sample_attached
    = Aborted (StillScheduled 99 7 99)
  /\ CheckNotScheduled (sample_heap 0) 99 sample_detached
     = Returned tt sample_detached.
Proof.
  destruct (CheckNotScheduled_spec (sample_heap 0) 99 sample_attached)
    as (Hiff & Hwho & _).
  destruct (CheckNotScheduled_spec (sample_heap 0) 99 sample_detached)
    as (_ & _ & Hnone).
  split.
  - destruct (proj1 Hiff) as [f Hf].
    { eexists. split; [apply list_elem_of_here|reflexivity]. }
    rewrite Hf. f_equal.
    destruct (Hwho f Hf) as (i & e & Hi & _ & _ & ->).
    destruct i as [|i]; [|destruct i; discriminate Hi].
    injection Hi as <-. reflexivity.
  - apply Hnone. intros e He.
    apply list_elem_of_singleton in He as ->. reflexivity.
Defined.

(** Thread 7 attaches and detaches, thread 8 attaches; thread 9 never
    does. *)
Lemma Contains_ever_attached_witness :
  exists r,
    run_ops false 8 tt
      [ Attach (sample_heap 0) sample_junk 7; Detach 7 sample_state;
        Attach (sample_heap 0) sample_junk 8 ] ThreadRegistry_new
    = Returned tt r
    /\ Contains 7 r = Returned true r
    /\ Contains 8 r = Returned true r
    /\ Contains 9 r = Returned false r.
Proof.
  destruct (Contains_ever_attached false 8 tt
              [ Attach (sample_heap 0) sample_junk 7; Detach 7 sample_state;
                Attach (sample_heap 0) sample_junk 8 ])
    as [(r & Hr & Hc)|(f & Hf)].
  - exists r. split; [exact Hr|]. rewrite !Hc. repeat split.
  - discriminate Hf.
Defined.

(** Thread 7 attaches; thread 1 requests a pause, which counts thread 7;
    thread 7 checks in; the request returns; thread 1 resumes and requests
    a second pause. *)
Lemma rendezvous_serialized_witness :
  let attach7 := CallRestoreStateTo (sample_heap 0) sample_junk 7 in
  let tr1 := [ Returns 7 attach7 ] in
  let tr2 := [ Does 7 CheckedIn ] in
  let tr3 := [ Does 1 Resumed; Returns 1 CallResumeAllThreads;
               Does 1 (Snapshot [7]) ] in
  (exists s,
     run false 8 tt contract
       (tr1 ++ Does 1 (Snapshot [7]) :: tr2
            ++ Returns 1 CallSafepointThreads :: tr3) s)
  /\ Does 7 CheckedIn ∈ tr2
  /\ Does 1 Resumed
       ∈ tr2 ++ [ Returns 1 CallSafepointThreads; Does 1 Resumed;
                  Returns 1 CallResumeAllThreads ].
Proof.
  intros attach7 tr1 tr2 tr3.
  pose proof (run_boot (Other := unit) false 8 tt contract) as H0.
  pose proof (run_call _ _ _ _ _ _ 7 attach7 H0 eq_refl eq_refl I) as H1.
  pose proof (run_call _ _ _ _ _ _ 1 CallSafepointThreads H1
                eq_refl eq_refl I) as H2.
  pose proof (run_call _ _ _ _ _ _ 7 CallCheckSafepoint H2
                eq_refl eq_refl (list_elem_of_here _ _)) as H3.
  pose proof (run_wake _ _ _ _ _ _ 1 _ _ H3 eq_refl eq_refl) as H4.
  pose proof (run_call _ _ _ _ _ _ 1 CallResumeAllThreads H4
                eq_refl eq_refl eq_refl) as H5.
  pose proof (run_call _ _ _ _ _ _ 1 CallSafepointThreads H5
                eq_refl eq_refl I) as H6.
  destruct (rendezvous_serialized (Other := unit) false 8 tt)
    as (_ & Hresume & Hwait).
  split; [eexists; exact H6|]. split.
  - eapply (Hwait _ _ tr1 1 [7] tr2 tr3 H6 eq_refl).
    + intros v cn Hin. apply list_elem_of_singleton in Hin. discriminate Hin.
    + apply list_elem_of_here.
  - exact (Hresume _ _ tr1 1 [7]
             (tr2 ++ [ Returns 1 CallSafepointThreads; Does 1 Resumed;
                       Returns 1 CallResumeAllThreads ])
             1 [7] [] H6 eq_refl).
Defined.

(** C9 as stated fails: thread 7 attaches and thread 1 requests a pause,
    which counts thread 7; thread 9, which has no entry, calls
    [SaveStateFrom], whose check-in of line 84 comes before the [ASSERT] of
    line 86; [remaining_] is now zero and [SafepointThreads] returns to
    thread 1 although thread 7 has not checked in. *)
Lemma rendezvous_returns_early :
  let attach7 := CallRestoreStateTo (sample_heap 0) sample_junk 7 in
  let tr1 := [ Returns 7 attach7 ] in
  let tr2 := [ Does 9 CheckedIn ] in
  (exists s,
     run false 8 tt unrestricted
       (tr1 ++ Does 1 (Snapshot [7]) :: tr2
            ++ Returns 1 CallSafepointThreads :: []) s)
  /\ (forall v cn, Does v (Snapshot cn) ∉ tr2)
  /\ 7 ∈ [7]
  /\ Does 7 CheckedIn ∉ tr2.
Proof.
  intros attach7 tr1 tr2.
  pose proof (run_boot (Other := unit) false 8 tt unrestricted) as H0.
  pose proof (run_call _ _ _ _ _ _ 7 attach7 H0 eq_refl eq_refl I) as H1.
  pose proof (run_call _ _ _ _ _ _ 1 CallSafepointThreads H1
                eq_refl eq_refl I) as H2.
  pose proof (run_call _ _ _ _ _ _ 9 (CallSaveStateFrom 9 sample_state) H2
                eq_refl eq_refl I) as H3.
  pose proof (run_wake _ _ _ _ _ _ 1 _ _ H3 eq_refl eq_refl) as H4.
  split; [eexists; exact H4|]. split; [|split].
  - intros v cn Hin. apply list_elem_of_singleton in Hin. discriminate Hin.
  - apply list_elem_of_here.
  - intros Hin. apply list_elem_of_singleton in Hin. discriminate Hin.
Qed.

(** ** More sample inputs *)

(** Thread 7 is attached, and attaches again with its
    [top_exit_frame_info] at zero. *)
Lemma RestoreStateTo_double_attach_witness :
  RestoreStateTo false 8 tt (sample_heap 0) sample_junk 7 sample_attached
  = Aborted (AssertFailed 61).
Proof.
  destruct (RestoreStateTo_double_attach false 8 tt (sample_heap 0)
              sample_junk 7 sample_attached 0%nat _ eq_refl eq_refl)
    as (_ & H & _).
  exact (H eq_refl).
Defined.

(** Thread 7 detached with a state saved at 10: it can come back at 12
    and cannot at 5. *)
Lemma RestoreStateTo_returns_iff_witness :
  returns_normally
    (RestoreStateTo false 8 tt (sample_heap 12) sample_junk 7 sample_detached)
  /\ ~ returns_normally
         (RestoreStateTo false 8 tt (sample_heap 5) sample_junk 7
            sample_detached).
Proof.
  split.
  - destruct (RestoreStateTo_returns_iff false 8 tt (sample_heap 12)
                sample_junk 7 sample_detached eq_refl) as [Hiff _].
    apply Hiff. right. eexists 0%nat, _.
    split; [reflexivity|]. split; [reflexivity|].
    right. right. cbn. lia.
  - destruct (RestoreStateTo_returns_iff false 8 tt (sample_heap 5)
                sample_junk 7 sample_detached eq_refl) as [Hiff _].
    intros Hret. apply Hiff in Hret.
    destruct Hret as [Hnone | (i & e & Hfind & _ & Hok)];
      [discriminate Hnone|].
    injection Hfind as <- <-. unfold marker_ok in Hok. cbn in Hok. lia.
Defined.

(** Thread 7 comes back at 12 in a [DEBUG] build. *)
Lemma RestoreStateTo_reattach_witness :
  exists r' e',
    RestoreStateTo true 8 tt (sample_heap 12) sample_junk 7 sample_detached
    = Returned (Some sample_state) r'
    /\ entries_ r' !! 0%nat = Some e'
    /\ Z.land (Z.shiftr (zone (state e')) 8) 255 = 0xda.
Proof.
  destruct (RestoreStateTo_reattach true 8 tt (sample_heap 12) sample_junk 7
              sample_detached 0%nat _ eq_refl eq_refl)
    as (r' & e' & Hret & _ & _ & Hi & _ & _ & _ & Hz).
  { right. right. cbn. lia. }
  { reflexivity. }
  exists r', e'. split; [exact Hret|]. split; [exact Hi|].
  destruct (Hz eq_refl 1%nat) as [H _]; [lia|]. exact H.
Defined.

(** Thread 9 arrives during a rendezvous and is woken while the
    rendezvous still lasts. *)
Lemma RestoreStateTo_waits_witness :
  let r := set_in_rendezvous true sample_attached in
  let w := set_in_rendezvous true sample_three in
  exists k,
    resume (RestoreStateTo false 8 tt (sample_heap 0) sample_junk 9 r) w
    = Parked w in_rendezvous_ k.
Proof.
  intros r w.
  destruct (RestoreStateTo_waits false 8 tt (sample_heap 0) sample_junk 9 r
              [w] eq_refl) as (k & Hk & _).
  { repeat constructor. }
  exists k. exact Hk.
Defined.

(** Thread 7 detaches; the entry of thread 6 stays. *)
Lemma other_entries_untouched_witness :
  keeps (fun r r' => FindEntry 6 (entries_ r') = FindEntry 6 (entries_ r))
    sample_three (SaveStateFrom 7 sample_state sample_three).
Proof.
  destruct (other_entries_untouched false 8 tt 7 6 sample_three) as [_ H];
    [discriminate|].
  exact (H sample_state).
Defined.

(** The table of [sample_three] with other saved states in its scheduled
    entries, and the threads at another [top_exit_frame_info]. *)
Lemma VisitObjectPointers_reads_witness :
  let r' :=
    set_entries
      [ {| thread := 6; scheduled := false; state := sample_state |};
        {| thread := 8; scheduled := true; state := sample_state |};
        {| thread := 7; scheduled := true; state := sample_state |} ]
      sample_three in
  exists seen,
    VisitObjectPointers (sample_heap 0) [] sample_three
    = Returned seen sample_three
    /\ VisitObjectPointers (sample_heap 5) [] r' = Returned seen r'
    /\ NULL ∉ seen.
Proof.
  intros r'.
  apply (VisitObjectPointers_reads (sample_heap 0) (sample_heap 5) []
           sample_three r').
  cbn. repeat (constructor; [split; reflexivity|]). constructor.
Defined.

(** Thread 7 attaches and detaches, thread 8 attaches. *)
Lemma run_ops_bracketed_witness :
  exists r,
    run_ops false 8 tt
      [ Attach (sample_heap 0) sample_junk 7; Detach 7 sample_state;
        Attach (sample_heap 0) sample_junk 8 ] ThreadRegistry_new
    = Returned tt r
    /\ exists i e, FindEntry 8 (entries_ r) = Some (i, e)
                   /\ scheduled e = true.
Proof.
  assert (Hrun : exists r,
            run_ops false 8 tt
              [ Attach (sample_heap 0) sample_junk 7; Detach 7 sample_state;
                Attach (sample_heap 0) sample_junk 8 ] ThreadRegistry_new
            = Returned tt r).
  { eexists. reflexivity. }
  destruct Hrun as [r Hr]. exists r. split; [exact Hr|].
  destruct (run_ops_bracketed false 8 tt _ r Hr) as (now & Hb & Hnow).
  apply Hnow. vm_compute in Hb. injection Hb as <-. apply list_elem_of_here.
Defined.

(** Thread 7 attaches and detaches; the isolate can be torn down. *)
Lemma CheckNotScheduled_after_ops_witness :
  exists r,
    run_ops false 8 tt
      [ Attach (sample_heap 0) sample_junk 7; Detach 7 sample_state ]
      ThreadRegistry_new
    = Returned tt r
    /\ CheckNotScheduled (sample_heap 0) 99 r = Returned tt r.
Proof.
  assert (Hrun : exists r,
            run_ops false 8 tt
              [ Attach (sample_heap 0) sample_junk 7; Detach 7 sample_state ]
              ThreadRegistry_new
            = Returned tt r).
  { eexists. reflexivity. }
  destruct Hrun as [r Hr]. exists r. split; [exact Hr|].
  destruct (CheckNotScheduled_after_ops false 8 tt _ r (sample_heap 0) 99 Hr)
    as [[_ H] _].
  apply H. reflexivity.
Defined.

(** Thread 7 attaches, detaches and attaches again after thread 8. *)
Lemma run_ops_roster_witness :
  exists r,
    run_ops false 8 tt
      [ Attach (sample_heap 0) sample_junk 7; Detach 7 sample_state;
        Attach (sample_heap 0) sample_junk 8;
        Attach (sample_heap 0) sample_junk 7 ] ThreadRegistry_new
    = Returned tt r
    /\ thread <$> entries_ r = [7; 8].
Proof.
  assert (Hrun : exists r,
            run_ops false 8 tt
              [ Attach (sample_heap 0) sample_junk 7; Detach 7 sample_state;
                Attach (sample_heap 0) sample_junk 8;
                Attach (sample_heap 0) sample_junk 7 ] ThreadRegistry_new
            = Returned tt r).
  { eexists. reflexivity. }
  destruct Hrun as [r Hr]. exists r. split; [exact Hr|].
  destruct (run_ops_roster false 8 tt _ r Hr) as [H _]. exact H.
Defined.

(** In [sample_three], thread 7 detaches with a state saved at 10; thread
    9 attaches and thread 8 detaches; thread 7 comes back at 12. *)
Lemma saved_state_survives_witness :
  exists r2 r3,
    run_ops false 8 tt
      [ Detach 7 sample_state; Attach (sample_heap 0) sample_junk 9;
        Detach 8 sample_junk ] sample_three
    = Returned tt r2
    /\ RestoreStateTo false 8 tt (sample_heap 12) sample_junk 7 r2
       = Returned (Some sample_state) r3.
Proof.
  assert (Hrun : exists r2,
            run_ops false 8 tt
              [ Detach 7 sample_state; Attach (sample_heap 0) sample_junk 9;
                Detach 8 sample_junk ] sample_three
            = Returned tt r2).
  { eexists. reflexivity. }
  destruct Hrun as [r2 Hr].
  destruct (saved_state_survives false 8 tt (sample_heap 12) sample_junk 7
              sample_state sample_three 2%nat _
              [ Attach (sample_heap 0) sample_junk 9; Detach 8 sample_junk ]
              r2 eq_refl eq_refl eq_refl)
    as [_ [r3 H3]].
  { repeat (constructor; [discriminate|]). constructor. }
  { exact Hr. }
  { right. right. cbn. lia. }
  exists r2, r3. split; [exact Hr|exact H3].
Defined.

